(** * cookie-handoff: cookie option adapters and the AES-GCM seal/unseal codec

    A shallow embedding of [src/adapters.ts] and [src/crypto.ts].

    Conventions of the embedding:
    - a JavaScript string is the list of its UTF-16 code units ([jsstring]);
    - a [Uint8Array] / [ArrayBuffer] is a [list byte];
    - a JavaScript number is a binary64 floating-point number ([float]), with
      the IEEE 754 arithmetic and comparisons of the language: [*] and [+]
      round, overflow to an infinity, and [<] is false on [NaN];
    - an optional property ([name?: string]) is a [property]: it is absent,
      present with the value [undefined], or present with a value;
    - a plain object used as a dictionary ([Record<string, unknown>]) is the
      finite map of its own properties, [gmap jsstring json];
    - a thrown exception (a rejected promise for the [async] functions) is
      the [Throw] case of [Completion];
    - [Date.now()] and [crypto.getRandomValues] read a [World] that is passed
      explicitly;
    - [btoa], [atob], [TextEncoder], [TextDecoder], [split] and [replaceAll]
      are written out from their specifications (HTML, Encoding and
      ECMAScript); SHA-256, AES-GCM and JSON are the fields of a [Platform],
      and the properties of [seal] and [unseal] hold for every platform. *)

From Stdlib Require Import ZArith NArith List Bool Ascii String Lia DecimalString.
From Stdlib Require Import Floats Uint63.
From Stdlib.Strings Require Import Byte.
From stdpp Require Import gmap list fin_maps.

Set Warnings "-register-all".
Local Open Scope Z_scope.

(** ** JavaScript strings *)

Abbreviation jsstring := (list N).

(** The string whose code units are the characters of an ASCII literal. *)
Definition js (s : string) : jsstring :=
  map N_of_ascii (list_ascii_of_string s).

(** ** Optional properties *)

(** A property of an object whose type declares it optional: not there,
    there with the value [undefined], or there with a value. Reading the
    property gives [undefined] in the first two cases; an object spread
    copies it in the last two. *)
Inductive property (A : Type) : Type :=
| Absent
| Undefined
| Value (a : A).
Arguments Absent {A}.
Arguments Undefined {A}.
Arguments Value {A} a.

(** * src/adapters.ts *)

Module Adapters.

Inductive Adapter : Type := next | express | hono | standard.

Inductive SameSite : Type := lax | strict | none.

Record CookieOptions : Type := mkCookieOptions {
  name : property jsstring;
  value : property jsstring;
  domain : property jsstring;
  path : property jsstring;
  maxAge : property float;
  httpOnly : property bool;
  secure : property bool;
  sameSite : property SameSite
}.

(** [Partial<CookieOptions> & { ttlSeconds?: number }], held as the two parts
    the destructuring [const { ttlSeconds, ...rest }] takes it into. *)
Record Overrides : Type := mkOverrides {
  ttlSeconds : property float;
  rest : CookieOptions
}.

Definition DEFAULTS : CookieOptions :=
  {| name := Absent; value := Absent; domain := Absent;
     path := Value (js "/");
     maxAge := Absent;
     httpOnly := Value true;
     secure := Value true;
     sameSite := Value lax |}.

(** The empty object literal [{}]. *)
Definition empty_options : CookieOptions :=
  {| name := Absent; value := Absent; domain := Absent; path := Absent;
     maxAge := Absent; httpOnly := Absent; secure := Absent; sameSite := Absent |}.

Definition toMaxAge (ttlSeconds : float) (adapter : Adapter) : float :=
  match adapter with
  | express => (ttlSeconds * 1000)%float
  | next | hono | standard => ttlSeconds
  end.

(** One property of an object spread [{ ...a, ...b }]: every own property
    of the later operand is copied, also one whose value is [undefined]. *)
Definition spread_prop {A : Type} (a b : property A) : property A :=
  match b with
  | Absent => a
  | Undefined => Undefined
  | Value v => Value v
  end.

(** [{ ...a, ...b }] *)
Definition spread (a b : CookieOptions) : CookieOptions :=
  {| name := spread_prop (name a) (name b);
     value := spread_prop (value a) (value b);
     domain := spread_prop (domain a) (domain b);
     path := spread_prop (path a) (path b);
     maxAge := spread_prop (maxAge a) (maxAge b);
     httpOnly := spread_prop (httpOnly a) (httpOnly b);
     secure := spread_prop (secure a) (secure b);
     sameSite := spread_prop (sameSite a) (sameSite b) |}.

(** [opts.maxAge = v] *)
Definition set_maxAge (opts : CookieOptions) (v : float) : CookieOptions :=
  {| name := name opts; value := value opts; domain := domain opts;
     path := path opts; maxAge := Value v; httpOnly := httpOnly opts;
     secure := secure opts; sameSite := sameSite opts |}.

(** [typeof ttlSeconds === 'number'] holds of a present number only. *)
Definition getCookieOptions (adapter : Adapter) (overrides : option Overrides)
  : CookieOptions :=
  let '(mkOverrides ttlSeconds rest) :=
    match overrides with
    | Some o => o
    | None => {| ttlSeconds := Absent; rest := empty_options |}
    end in
  let opts := spread DEFAULTS rest in
  match ttlSeconds with
  | Value ttl => set_maxAge opts (toMaxAge ttl adapter)
  | Absent | Undefined => opts
  end.

Definition clearCookieOptions (adapter : Adapter) (overrides : option CookieOptions)
  : CookieOptions :=
  let o := match overrides with Some o => o | None => empty_options end in
  spread (spread DEFAULTS o)
    {| name := Absent; value := Value []; domain := Absent; path := Absent;
       maxAge := Value 0%float; httpOnly := Absent; secure := Absent;
       sameSite := Absent |}.

End Adapters.

(** * src/crypto.ts *)

Module Crypto.

Local Open Scope N_scope.

(** ** Values and completions *)

(** The values [JSON.parse] produces. An object is the finite map of its own
    properties. *)
Inductive json : Type :=
| JNull
| JBool (b : bool)
| JNumber (x : float)
| JString (s : jsstring)
| JArray (l : list json)
| JObject (m : gmap jsstring json).

Inductive Error : Type :=
| TypeError | SyntaxError | InvalidCharacterError | OperationError.

(** The outcome of an evaluation: a value, or a thrown exception. *)
Inductive Completion (A : Type) : Type :=
| Return (a : A)
| Throw (e : Error).
Arguments Return {A} a.
Arguments Throw {A} e.

(** ** The environment: the clock and the system random source *)

Record World : Type := mkWorld {
  clock : float;
  entropy : nat → byte
}.

(** [Date.now()] *)
Definition Date_now (w : World) : float := clock w.

(** [crypto.getRandomValues(new Uint8Array(n))]: the next [n] bytes of the
    random source, which are consumed. *)
Definition getRandomValues (n : nat) (w : World) : list byte * World :=
  (map (entropy w) (seq 0 n),
   {| clock := clock w; entropy := λ i, entropy w (n + i)%nat |}).

(** ** Platform string and byte primitives *)

Definition byte_of_N (n : N) : byte :=
  match Byte.of_N n with
  | Some b => b
  | None => x00
  end.

(** [s.replaceAll(a, b)] for one-character [a] and [b]. *)
Definition replaceAll (a b : N) (s : jsstring) : jsstring :=
  map (λ c, if c =? a then b else c) s.

(** [s.replace(/c+$/, '')]: drops the run of [c] that ends the string. *)
Fixpoint strip_trailing (c : N) (s : jsstring) : jsstring :=
  match s with
  | [] => []
  | x :: s' =>
    match strip_trailing c s' with
    | [] => if x =? c then [] else [x]
    | r => x :: r
    end
  end.

(** [s.split(sep)] for a one-character separator. *)
Fixpoint String_split (sep : N) (s : jsstring) : list jsstring :=
  match s with
  | [] => [[]]
  | c :: s' =>
    if c =? sep then [] :: String_split sep s'
    else match String_split sep s' with
         | p :: ps => (c :: p) :: ps
         | [] => [[c]]
         end
  end.

(** The base64 alphabet [A-Z a-z 0-9 + /]: the character of a 6-bit value,
    and the 6-bit value of a character. *)
Definition b64_char (n : N) : N :=
  if n <? 26 then 65 + n
  else if n <? 52 then 71 + n
  else if n <? 62 then n - 4
  else if n =? 62 then 43
  else 47.

Definition b64_index (c : N) : option N :=
  if (65 <=? c) && (c <=? 90) then Some (c - 65)
  else if (97 <=? c) && (c <=? 122) then Some (c - 71)
  else if (48 <=? c) && (c <=? 57) then Some (c + 4)
  else if c =? 43 then Some 62
  else if c =? 47 then Some 63
  else None.

(** [btoa(binary)], on the binary string that holds one code unit per byte:
    three bytes make four characters, and a final group of one or two bytes
    is padded with [=]. *)
Fixpoint btoa (binary : list byte) : jsstring :=
  match binary with
  | [] => []
  | [a] =>
    let n := Byte.to_N a * 65536 in
    [b64_char (n / 262144); b64_char (n / 4096 mod 64); 61; 61]
  | [a; b] =>
    let n := Byte.to_N a * 65536 + Byte.to_N b * 256 in
    [b64_char (n / 262144); b64_char (n / 4096 mod 64);
     b64_char (n / 64 mod 64); 61]
  | a :: b :: c :: rest =>
    let n := Byte.to_N a * 65536 + Byte.to_N b * 256 + Byte.to_N c in
    b64_char (n / 262144) :: b64_char (n / 4096 mod 64) ::
    b64_char (n / 64 mod 64) :: b64_char (n mod 64) :: btoa rest
  end.

Definition is_ascii_whitespace (c : N) : bool :=
  (c =? 9) || (c =? 10) || (c =? 12) || (c =? 13) || (c =? 32).

(** One or two [=] that end the string are removed. *)
Definition remove_padding (data : jsstring) : jsstring :=
  match rev data with
  | x :: y :: r =>
    if x =? 61 then (if y =? 61 then rev r else rev (y :: r)) else data
  | [x] => if x =? 61 then [] else data
  | [] => data
  end.

Fixpoint sextets (data : jsstring) : option (list N) :=
  match data with
  | [] => Some []
  | c :: data' =>
    match b64_index c, sextets data' with
    | Some n, Some ns => Some (n :: ns)
    | _, _ => None
    end
  end.

Fixpoint bytes_of_sextets (l : list N) : list byte :=
  match l with
  | a :: b :: c :: d :: rest =>
    let n := a * 262144 + b * 4096 + c * 64 + d in
    byte_of_N (n / 65536) :: byte_of_N (n / 256 mod 256) ::
    byte_of_N (n mod 256) :: bytes_of_sextets rest
  | [a; b; c] =>
    let n := a * 262144 + b * 4096 + c * 64 in
    [byte_of_N (n / 65536); byte_of_N (n / 256 mod 256)]
  | [a; b] =>
    let n := a * 262144 + b * 4096 in
    [byte_of_N (n / 65536)]
  | _ => []
  end.

(** [atob(data)], the forgiving base64 decoder: ASCII whitespace is skipped,
    padding is optional, a length of 1 modulo 4 or a character outside the
    alphabet throws. The result is the binary string, one byte per code
    unit. *)
Definition atob (data : jsstring) : Completion (list byte) :=
  let data := List.filter (λ c, negb (is_ascii_whitespace c)) data in
  let data :=
    if N.of_nat (length data) mod 4 =? 0 then remove_padding data else data in
  if N.of_nat (length data) mod 4 =? 1 then Throw InvalidCharacterError
  else match sextets data with
       | Some ns => Return (bytes_of_sextets ns)
       | None => Throw InvalidCharacterError
       end.

(** [new TextEncoder().encode(s)]: the UTF-8 encoding of the string, a
    surrogate without its partner being encoded as U+FFFD. *)
Definition is_lead_surrogate (c : N) : bool := (0xD800 <=? c) && (c <=? 0xDBFF).
Definition is_trail_surrogate (c : N) : bool := (0xDC00 <=? c) && (c <=? 0xDFFF).

Fixpoint code_points (s : jsstring) : list N :=
  match s with
  | [] => []
  | c :: s' =>
    if is_lead_surrogate c then
      match s' with
      | d :: s'' =>
        if is_trail_surrogate d
        then (0x10000 + (c - 0xD800) * 0x400 + (d - 0xDC00)) :: code_points s''
        else 0xFFFD :: code_points s'
      | [] => [0xFFFD]
      end
    else if is_trail_surrogate c then 0xFFFD :: code_points s'
    else c :: code_points s'
  end.

Definition utf8_of_code_point (cp : N) : list byte :=
  if cp <? 0x80 then [byte_of_N cp]
  else if cp <? 0x800 then
    [byte_of_N (0xC0 + cp / 64); byte_of_N (0x80 + cp mod 64)]
  else if cp <? 0x10000 then
    [byte_of_N (0xE0 + cp / 4096); byte_of_N (0x80 + cp / 64 mod 64);
     byte_of_N (0x80 + cp mod 64)]
  else
    [byte_of_N (0xF0 + cp / 262144); byte_of_N (0x80 + cp / 4096 mod 64);
     byte_of_N (0x80 + cp / 64 mod 64); byte_of_N (0x80 + cp mod 64)].

Definition TextEncoder_encode (s : jsstring) : list byte :=
  concat (map utf8_of_code_point (code_points s)).

(** [new TextDecoder().decode(bytes)]: the UTF-8 decoder in replacement
    mode. [utf8_state] is the decoder's state between two bytes: the code
    point being assembled, the continuation bytes still expected, and the
    range the next byte must lie in. *)
Record utf8_state : Type := mkUtf8 {
  u_code_point : N;
  u_needed : nat;
  u_lower : N;
  u_upper : N
}.

Definition utf8_initial : utf8_state :=
  {| u_code_point := 0; u_needed := 0; u_lower := 0x80; u_upper := 0xBF |}.

(** A byte read when no sequence is open: the code points it emits and the
    state it leaves. *)
Definition utf8_lead (b : N) : list N * utf8_state :=
  if b <=? 0x7F then ([b], utf8_initial)
  else if (0xC2 <=? b) && (b <=? 0xDF) then
    ([], {| u_code_point := N.land b 0x1F; u_needed := 1;
            u_lower := 0x80; u_upper := 0xBF |})
  else if (0xE0 <=? b) && (b <=? 0xEF) then
    ([], {| u_code_point := N.land b 0xF; u_needed := 2;
            u_lower := if b =? 0xE0 then 0xA0 else 0x80;
            u_upper := if b =? 0xED then 0x9F else 0xBF |})
  else if (0xF0 <=? b) && (b <=? 0xF4) then
    ([], {| u_code_point := N.land b 0x7; u_needed := 3;
            u_lower := if b =? 0xF0 then 0x90 else 0x80;
            u_upper := if b =? 0xF4 then 0x8F else 0xBF |})
  else ([0xFFFD], utf8_initial).

Definition utf8_step (st : utf8_state) (b : N) : list N * utf8_state :=
  match u_needed st with
  | O => utf8_lead b
  | S k =>
    if (u_lower st <=? b) && (b <=? u_upper st) then
      let cp := N.lor (N.shiftl (u_code_point st) 6) (N.land b 0x3F) in
      match k with
      | O => ([cp], utf8_initial)
      | S _ => ([], {| u_code_point := cp; u_needed := k;
                       u_lower := 0x80; u_upper := 0xBF |})
      end
    else
      (* the open sequence is replaced and the byte is read again *)
      let '(out, st') := utf8_lead b in (0xFFFD :: out, st')
  end.

Fixpoint utf8_decode (st : utf8_state) (bytes : list byte) : list N :=
  match bytes with
  | [] => match u_needed st with O => [] | S _ => [0xFFFD] end
  | b :: bytes' =>
    let '(out, st') := utf8_step st (Byte.to_N b) in
    out ++ utf8_decode st' bytes'
  end.

Definition code_units_of_code_point (cp : N) : jsstring :=
  if cp <? 0x10000 then [cp]
  else [0xD800 + (cp - 0x10000) / 0x400; 0xDC00 + (cp - 0x10000) mod 0x400].

Definition strip_bom (bytes : list byte) : list byte :=
  match bytes with
  | xef :: xbb :: xbf :: bytes' => bytes'
  | _ => bytes
  end.

Definition TextDecoder_decode (bytes : list byte) : jsstring :=
  concat (map code_units_of_code_point (utf8_decode utf8_initial (strip_bom bytes))).

(** ** The Web Crypto and JSON primitives the module calls *)

Class Platform : Type := {
  (** [crypto.subtle.digest('SHA-256', data)] *)
  SHA256 : list byte → list byte;
  (** [crypto.subtle.encrypt({name: 'AES-GCM', iv, tagLength: 128}, key, data)]:
      the ciphertext followed by the tag. *)
  AES_GCM_encrypt : list byte → list byte → list byte → list byte;
  (** [crypto.subtle.decrypt] with the same parameters; [None] when it
      throws (the tag does not verify, or the input is not usable). *)
  AES_GCM_decrypt : list byte → list byte → list byte → option (list byte);
  (** [JSON.stringify(value)] *)
  JSON_stringify : json → jsstring;
  (** [JSON.parse(text)]; [None] when it throws a [SyntaxError]. *)
  JSON_parse : jsstring → option json
}.

(** ** The module *)

Definition SEPARATOR : N := 46.  (* '.' *)
Definition IV_LENGTH : nat := 12.
Definition TTL_DEFAULT : float := 300.

(** The property name ["_exp"]. *)
Definition _exp : jsstring := js "_exp".

Definition base64UrlEncode (buffer : list byte) : jsstring :=
  let bytes := buffer in
  let binary := bytes in
  strip_trailing 61 (replaceAll 47 95 (replaceAll 43 45 (btoa binary))).

Definition base64UrlDecode (str : jsstring) : Completion (list byte) :=
  let padded := replaceAll 95 47 (replaceAll 45 43 str) in
  match atob padded with
  | Return binary => Return binary
  | Throw e => Throw e
  end.

Definition toArrayBuffer (view : list byte) : list byte := view.

Section Codec.
Context `{Pf : Platform}.

(** The [CryptoKey] is held as its raw key material. *)
Definition deriveKey (secret : jsstring) : list byte :=
  let data := TextEncoder_encode secret in
  let hashBuffer := SHA256 data in
  hashBuffer.

Definition seal (payload : gmap jsstring json) (secret : jsstring)
    (ttl : option float) (w : World) : jsstring * World :=
  let ttlSeconds := default TTL_DEFAULT ttl in
  let key := deriveKey secret in
  let '(iv, w) := getRandomValues IV_LENGTH w in
  let exp := (Date_now w + ttlSeconds * 1000)%float in
  let data := <[_exp := JNumber exp]> payload in
  let plaintext := TextEncoder_encode (JSON_stringify (JObject data)) in
  let plaintextBuf := toArrayBuffer plaintext in
  let ciphertext := AES_GCM_encrypt key iv plaintextBuf in
  let ivB64 := base64UrlEncode iv in
  let ctB64 := base64UrlEncode ciphertext in
  (ivB64 ++ SEPARATOR :: ctB64, w).

(** [data._exp]: reading a property of [null] throws; a number, a string, a
    boolean or an array has no property of that name. *)
Definition get_exp (data : json) : Completion (option json) :=
  match data with
  | JNull => Throw TypeError
  | JObject m => Return (m !! _exp)
  | JBool _ | JNumber _ | JString _ | JArray _ => Return None
  end.

(** [delete data._exp] *)
Definition delete_exp (data : json) : json :=
  match data with
  | JObject m => JObject (delete _exp m)
  | v => v
  end.

(** [Return None] is the [null] result. *)
Definition unseal (token : option jsstring) (secret : jsstring) (w : World)
  : Completion (option json) :=
  match token with
  | None | Some [] => Return None
  | Some token =>
    match secret with
    | [] => Return None
    | _ =>
      let parts := String_split SEPARATOR token in
      match parts with
      | [ivB64; ctB64] =>
        match base64UrlDecode ivB64, base64UrlDecode ctB64 with
        | Return iv, Return ciphertext =>
          let key := deriveKey secret in
          match AES_GCM_decrypt key iv (toArrayBuffer ciphertext) with
          | None => Return None
          | Some plaintext =>
            let json := TextDecoder_decode plaintext in
            match JSON_parse json with
            | None => Return None
            | Some data =>
              match get_exp data with
              | Throw e => Throw e
              | Return (Some (JNumber exp)) =>
                if (exp <? Date_now w)%float then Return None
                else Return (Some (delete_exp data))
              | Return _ => Return None
              end
            end
          end
        | _, _ => Return None
        end
      | _ => Return None
      end
    end
  end.

End Codec.

End Crypto.

(** * A reference platform

    An executable model of the primitives of [Platform]: SHA-256, AES-256 in
    Galois/Counter Mode with a 128-bit tag, and the JSON text format. The
    properties of [seal] and [unseal] are proved for every platform; this one
    runs them on concrete inputs. *)

Module Reference.
Import Crypto.
Local Open Scope N_scope.

(** ** SHA-256 (FIPS 180-4) *)

Definition w32 (x : N) : N := x mod 0x100000000.

Definition rotr (n x : N) : N :=
  N.lor (N.shiftr x n) (w32 (N.shiftl x (32 - n))).

Definition Ch (x y z : N) : N :=
  N.lxor (N.land x y) (N.land (N.lxor x 0xFFFFFFFF) z).
Definition Maj (x y z : N) : N :=
  N.lxor (N.lxor (N.land x y) (N.land x z)) (N.land y z).
Definition Sigma0 (x : N) : N := N.lxor (N.lxor (rotr 2 x) (rotr 13 x)) (rotr 22 x).
Definition Sigma1 (x : N) : N := N.lxor (N.lxor (rotr 6 x) (rotr 11 x)) (rotr 25 x).
Definition sigma0 (x : N) : N := N.lxor (N.lxor (rotr 7 x) (rotr 18 x)) (N.shiftr x 3).
Definition sigma1 (x : N) : N := N.lxor (N.lxor (rotr 17 x) (rotr 19 x)) (N.shiftr x 10).

(** The first 64 primes; the constants of the hash are the leading
    fractional bits of their square and cube roots. *)
Definition primes : list N :=
  [2; 3; 5; 7; 11; 13; 17; 19; 23; 29; 31; 37; 41; 43; 47; 53;
   59; 61; 67; 71; 73; 79; 83; 89; 97; 101; 103; 107; 109; 113; 127; 131;
   137; 139; 149; 151; 157; 163; 167; 173; 179; 181; 191; 193; 197; 199;
   211; 223; 227; 229; 233; 239; 241; 251; 257; 263; 269; 271; 277; 281;
   283; 293; 307; 311].

(** The integer cube root, one bit at a time from bit 39 down. *)
Definition cube_root (n : N) : N :=
  fold_left (λ r b, let r' := r + N.shiftl 1 (N.of_nat b) in
                    if r' * r' * r' <=? n then r' else r)
            (rev (seq 0 40)) 0.

Definition sha_K : list N :=
  Eval vm_compute in map (λ p, w32 (cube_root (N.shiftl p 96))) primes.

Definition sha_H0 : list N :=
  Eval vm_compute in map (λ p, w32 (N.sqrt (N.shiftl p 64))) (take 8 primes).

(** The [k] bytes of [x], most significant first. *)
Definition be_bytes (k : nat) (x : N) : list N :=
  map (λ i, N.shiftr x (8 * N.of_nat (k - 1 - i)) mod 256) (seq 0 k).

(** The number whose bytes, most significant first, are [bs]. *)
Definition be_number (bs : list N) : N :=
  fold_left (λ acc b, acc * 256 + b) bs 0.

Definition sha_pad (msg : list N) : list N :=
  let len := length msg in
  let zeros := ((64 - (len + 9) mod 64) mod 64)%nat in
  msg ++ [0x80] ++ repeat 0 zeros ++ be_bytes 8 (8 * N.of_nat len).

(** The list cut into pieces of [n] elements. *)
Fixpoint chunks {A : Type} (fuel n : nat) (l : list A) : list (list A) :=
  match fuel, l with
  | _, [] => []
  | O, _ => []
  | S fuel, _ => take n l :: chunks fuel n (drop n l)
  end.

Definition blocks_of {A : Type} (n : nat) (l : list A) : list (list A) :=
  chunks (length l) n l.

(** The 64 words of the message schedule of a block. *)
Definition sha_schedule (block : list N) : list N :=
  let w16 := map be_number (blocks_of 4 block) in
  fold_left (λ w _,
               let t := length w in
               let x i := nth (t - i) w 0 in
               w ++ [w32 (sigma1 (x 2%nat) + x 7%nat + sigma0 (x 15%nat) + x 16%nat)])
            (seq 16 48) w16.

Definition sha_round (st : list N) (kw : N * N) : list N :=
  match st with
  | [a; b; c; d; e; f; g; h] =>
    let t1 := h + Sigma1 e + Ch e f g + kw.1 + kw.2 in
    let t2 := Sigma0 a + Maj a b c in
    [w32 (t1 + t2); a; b; c; w32 (d + t1); e; f; g]
  | _ => st
  end.

Definition sha_compress (H : list N) (block : list N) : list N :=
  let st := fold_left sha_round (zip sha_K (sha_schedule block)) H in
  zip_with (λ x y, w32 (x + y)) H st.

Definition sha256_N (msg : list N) : list N :=
  concat (map (be_bytes 4) (fold_left sha_compress (blocks_of 64 (sha_pad msg)) sha_H0)).

Definition ref_SHA256 (data : list byte) : list byte :=
  map byte_of_N (sha256_N (map Byte.to_N data)).

(** ** AES-256 (FIPS 197) *)

(** Multiplication by [x] and by any element in GF(2^8) modulo
    [x^8 + x^4 + x^3 + x + 1]. *)
Definition xtime (a : N) : N :=
  let b := 2 * a in if b <? 256 then b else N.lxor b 0x11B.

Definition gf_mul (a b : N) : N :=
  (fold_left (λ '(acc, p) i,
                (if N.testbit b (N.of_nat i) then N.lxor acc p else acc, xtime p))
             (seq 0 8) (0, a)).1.

(** The multiplicative inverse (of zero: zero), as the 254th power. *)
Definition gf_inv (a : N) : N :=
  fold_left (λ acc _, gf_mul acc a) (seq 0 253) a.

Definition rotl8 (a k : N) : N :=
  N.lor (N.shiftl a k mod 256) (N.shiftr a (8 - k)).

Definition sub_byte (a : N) : N :=
  let b := gf_inv a in
  N.lxor (N.lxor (N.lxor (N.lxor (N.lxor b (rotl8 b 1)) (rotl8 b 2)) (rotl8 b 3))
            (rotl8 b 4)) 0x63.

Definition sbox : list N :=
  Eval vm_compute in map (λ i, sub_byte (N.of_nat i)) (seq 0 256).

Definition SubBytes (s : list N) : list N :=
  map (λ a, nth (N.to_nat a) sbox 0) s.

Definition xor_words (a b : list N) : list N := zip_with N.lxor a b.

(** The key schedule of a 256-bit key: 60 words of four bytes. *)
Definition KeyExpansion (key : list N) : list (list N) :=
  fold_left (λ w i,
               let temp := nth (i - 1) w [] in
               let temp :=
                 if (i mod 8 =? 0)%nat then
                   xor_words (SubBytes (drop 1 temp ++ take 1 temp))
                             [N.shiftl 1 (N.of_nat (i / 8 - 1)); 0; 0; 0]
                 else if (i mod 8 =? 4)%nat then SubBytes temp
                 else temp in
               w ++ [xor_words (nth (i - 8) w []) temp])
            (seq 8 52) (blocks_of 4 key).

(** The state is held column by column: byte [4c + r] is row [r] of column
    [c]. *)
Definition ShiftRows (s : list N) : list N :=
  map (λ i, nth (4 * ((i / 4 + i mod 4) mod 4) + i mod 4)%nat s 0) (seq 0 16).

Definition mix_column (col : list N) : list N :=
  match col with
  | [a0; a1; a2; a3] =>
    [N.lxor (N.lxor (N.lxor (gf_mul 2 a0) (gf_mul 3 a1)) a2) a3;
     N.lxor (N.lxor (N.lxor a0 (gf_mul 2 a1)) (gf_mul 3 a2)) a3;
     N.lxor (N.lxor (N.lxor a0 a1) (gf_mul 2 a2)) (gf_mul 3 a3);
     N.lxor (N.lxor (N.lxor (gf_mul 3 a0) a1) a2) (gf_mul 2 a3)]
  | _ => col
  end.

Definition MixColumns (s : list N) : list N :=
  concat (map mix_column (blocks_of 4 s)).

Definition AddRoundKey (w : list (list N)) (round : nat) (s : list N) : list N :=
  xor_words s (concat (take 4 (drop (4 * round) w))).

(** The cipher on one 16-byte block, with the expanded key. *)
Definition Cipher (w : list (list N)) (block : list N) : list N :=
  let s := AddRoundKey w 0 block in
  let s := fold_left (λ s round,
                        AddRoundKey w round (MixColumns (ShiftRows (SubBytes s))))
                     (seq 1 13) s in
  AddRoundKey w 14 (ShiftRows (SubBytes s)).

(** ** GCM (NIST SP 800-38D), blocks as 128-bit numbers *)

Definition gf128_mul (x y : N) : N :=
  (fold_left (λ '(z, v) i,
                (if N.testbit x (N.of_nat (127 - i)) then N.lxor z v else z,
                 if N.testbit v 0
                 then N.lxor (N.shiftr v 1) (N.shiftl 0xE1 120)
                 else N.shiftr v 1))
             (seq 0 128) (0, y)).1.

Definition GHASH (h : N) (blocks : list N) : N :=
  fold_left (λ y x, gf128_mul (N.lxor y x) h) blocks 0.

(** The bytes as 128-bit blocks, the last one filled with zero bits. *)
Definition pad_blocks (bs : list N) : list N :=
  map (λ b, be_number (b ++ repeat 0 (16 - length b))) (blocks_of 16 bs).

Definition inc32 (cb : N) : N :=
  N.shiftl (N.shiftr cb 32) 32 + (cb + 1) mod 0x100000000.

Definition encrypt_block (w : list (list N)) (x : N) : N :=
  be_number (Cipher w (be_bytes 16 x)).

(** The pre-counter block of a nonce. *)
Definition J0 (h : N) (iv : list N) : N :=
  if (length iv =? 12)%nat then be_number (iv ++ [0; 0; 0; 1])
  else GHASH h (pad_blocks iv ++ [8 * N.of_nat (length iv)]).

(** The first [n] bytes of the key stream that starts at counter block
    [icb]. *)
Definition keystream (w : list (list N)) (icb : N) (n : nat) : list N :=
  take n (concat (map (λ i, be_bytes 16 (encrypt_block w (Nat.iter i inc32 icb)))
                      (seq 0 (n / 16 + 1)))).

Definition bxor (x y : byte) : byte :=
  byte_of_N (N.lxor (Byte.to_N x) (Byte.to_N y)).

Definition xor_bytes (a b : list byte) : list byte := zip_with bxor a b.

Definition gcm_keystream (key iv : list byte) (n : nat) : list byte :=
  let w := KeyExpansion (map Byte.to_N key) in
  let h := encrypt_block w 0 in
  map byte_of_N (keystream w (inc32 (J0 h (map Byte.to_N iv))) n).

(** The 128-bit tag of a ciphertext (no additional data). *)
Definition gcm_tag (key iv ciphertext : list byte) : list byte :=
  let w := KeyExpansion (map Byte.to_N key) in
  let h := encrypt_block w 0 in
  let c := map Byte.to_N ciphertext in
  let s := GHASH h (pad_blocks c ++ [8 * N.of_nat (length c)]) in
  map byte_of_N (be_bytes 16 (N.lxor s (encrypt_block w (J0 h (map Byte.to_N iv))))).

Definition ref_encrypt (key iv plaintext : list byte) : list byte :=
  let ciphertext := xor_bytes plaintext (gcm_keystream key iv (length plaintext)) in
  ciphertext ++ gcm_tag key iv ciphertext.

Definition ref_decrypt (key iv data : list byte) : option (list byte) :=
  match iv with
  | [] => None
  | _ =>
    if (length data <? 16)%nat then None
    else
      let ciphertext := take (length data - 16) data in
      let tag := drop (length data - 16) data in
      if bool_decide (map Byte.to_N tag = map Byte.to_N (gcm_tag key iv ciphertext))
      then Some (xor_bytes ciphertext (gcm_keystream key iv (length ciphertext)))
      else None
  end.

(** ** JSON (ECMA-404), as [JSON.stringify] writes it and [JSON.parse]
    reads it, on the values of [json] *)

Definition hex_digit (n : N) : N := if n <? 10 then 48 + n else 87 + n.

(** [\uXXXX] *)
Definition unicode_escape (c : N) : jsstring :=
  [92; 117; hex_digit (c / 4096 mod 16); hex_digit (c / 256 mod 16);
   hex_digit (c / 16 mod 16); hex_digit (c mod 16)].

Definition quote_code_unit (c : N) : jsstring :=
  if c =? 8 then js "\b"
  else if c =? 9 then js "\t"
  else if c =? 10 then js "\n"
  else if c =? 12 then js "\f"
  else if c =? 13 then js "\r"
  else if c =? 34 then [92; 34]
  else if c =? 92 then [92; 92]
  else if c <? 32 then unicode_escape c
  else [c].

(** The characters of a quoted string: a surrogate without its partner is
    escaped. *)
Fixpoint quote_chars (s : jsstring) : jsstring :=
  match s with
  | [] => []
  | c :: s' =>
    if is_lead_surrogate c then
      match s' with
      | d :: s'' =>
        if is_trail_surrogate d then c :: d :: quote_chars s''
        else unicode_escape c ++ quote_chars s'
      | [] => unicode_escape c
      end
    else if is_trail_surrogate c then unicode_escape c ++ quote_chars s'
    else quote_code_unit c ++ quote_chars s'
  end.

Definition quote (s : jsstring) : jsstring := 34 :: quote_chars s ++ [34].

Definition decimal (z : Z) : jsstring := js (NilZero.string_of_int (Z.to_int z)).

(** The integer a number is, when it is one. *)
Definition float_integer (x : float) : option Z :=
  match Prim2SF x with
  | S754_zero _ => Some 0%Z
  | S754_finite s m e =>
    let magnitude :=
      if (0 <=? e)%Z then Some (Z.pos m * 2 ^ e)%Z
      else if (Z.pos m mod 2 ^ (- e) =? 0)%Z then Some (Z.pos m / 2 ^ (- e))%Z
      else None in
    match magnitude with
    | Some z => Some (if s then (- z)%Z else z)
    | None => None
    end
  | S754_nan | S754_infinity _ => None
  end.

Definition is_finite (x : float) : bool :=
  match Prim2SF x with
  | S754_nan | S754_infinity _ => false
  | S754_zero _ | S754_finite _ _ _ => true
  end.

(** A number as [JSON.stringify] writes it: [null] for [NaN] and the
    infinities, the decimal digits for an integer of magnitude at most
    2^53. The other numbers are outside what this model writes: they are
    given a text that is not JSON. *)
Definition number_text (x : float) : jsstring :=
  if is_finite x then
    match float_integer x with
    | Some z =>
      if (Z.abs z <=? 9007199254740992)%Z then decimal z else js "?"
    | None => js "?"
    end
  else js "null".

(** The number an integer literal denotes, rounded to the nearest; an
    integer of 2^63 or more is not read. *)
Definition float_of_N (n : N) : option float :=
  if n <? 9223372036854775808 then Some (PrimFloat.of_uint63 (Uint63.of_Z (Z.of_N n)))
  else None.

Fixpoint join (sep : jsstring) (l : list jsstring) : jsstring :=
  match l with
  | [] => []
  | [s] => s
  | s :: l' => s ++ sep ++ join sep l'
  end.

Fixpoint ref_stringify (v : json) : jsstring :=
  match v with
  | JNull => js "null"
  | JBool true => js "true"
  | JBool false => js "false"
  | JNumber x => number_text x
  | JString s => quote s
  | JArray l => 91 :: join [44] (map ref_stringify l) ++ [93]
  | JObject m =>
    123 :: join [44] (map_fold (λ k v' acc, (quote k ++ 58 :: ref_stringify v') :: acc) [] m)
        ++ [125]
  end.

Definition is_json_whitespace (c : N) : bool :=
  (c =? 32) || (c =? 9) || (c =? 10) || (c =? 13).

Fixpoint skip_ws (s : jsstring) : jsstring :=
  match s with
  | c :: s' => if is_json_whitespace c then skip_ws s' else s
  | [] => []
  end.

Definition is_digit (c : N) : bool := (48 <=? c) && (c <=? 57).

Definition hex_value (c : N) : option N :=
  if is_digit c then Some (c - 48)
  else if (97 <=? c) && (c <=? 102) then Some (c - 87)
  else if (65 <=? c) && (c <=? 70) then Some (c - 55)
  else None.

(** The characters of a string up to its closing quote. *)
Fixpoint parse_chars (s : jsstring) : option (jsstring * jsstring) :=
  match s with
  | [] => None
  | 34 :: s' => Some ([], s')
  | 92 :: 117 :: a :: b :: c :: d :: s' =>
    match hex_value a, hex_value b, hex_value c, hex_value d, parse_chars s' with
    | Some a, Some b, Some c, Some d, Some (r, rest) =>
      Some (a * 4096 + b * 256 + c * 16 + d :: r, rest)
    | _, _, _, _, _ => None
    end
  | 92 :: e :: s' =>
    let c := if e =? 34 then Some 34 else if e =? 92 then Some 92
             else if e =? 47 then Some 47 else if e =? 98 then Some 8
             else if e =? 102 then Some 12 else if e =? 110 then Some 10
             else if e =? 114 then Some 13 else if e =? 116 then Some 9
             else None in
    match c, parse_chars s' with
    | Some c, Some (r, rest) => Some (c :: r, rest)
    | _, _ => None
    end
  | c :: s' =>
    if (c <? 32) || (c =? 92) then None
    else match parse_chars s' with
         | Some (r, rest) => Some (c :: r, rest)
         | None => None
         end
  end.

Fixpoint parse_digits (acc : N) (s : jsstring) : N * jsstring :=
  match s with
  | c :: s' => if is_digit c then parse_digits (acc * 10 + (c - 48)) s' else (acc, s)
  | [] => (acc, [])
  end.

(** An integer literal. A fraction or an exponent is not read. *)
Definition parse_int (s : jsstring) : option (float * jsstring) :=
  let '(neg, s) := match s with 45 :: s' => (true, s') | _ => (false, s) end in
  match s with
  | c :: s' =>
    if is_digit c then
      let '(n, rest) := if c =? 48 then (0, s') else parse_digits 0 s in
      let follows :=
        match rest with
        | d :: _ => is_digit d || (d =? 46) || (d =? 101) || (d =? 69)
        | [] => false
        end in
      if follows then None
      else match float_of_N n with
           | Some x => Some (if neg then (- x)%float else x, rest)
           | None => None
           end
    else None
  | [] => None
  end.

Definition expect (lit : jsstring) (v : json) (s : jsstring) : option (json * jsstring) :=
  if bool_decide (take (length lit) s = lit) then Some (v, drop (length lit) s) else None.

Section Parser.
Variable parse_value : jsstring → option (json * jsstring).

(** The elements of an array after the first, up to the closing bracket. *)
Fixpoint parse_elements (fuel : nat) (acc : list json) (s : jsstring)
  : option (json * jsstring) :=
  match fuel with
  | O => None
  | S fuel =>
    match skip_ws s with
    | 93 :: rest => Some (JArray (rev acc), rest)
    | 44 :: rest =>
      match parse_value rest with
      | Some (v, rest) => parse_elements fuel (v :: acc) rest
      | None => None
      end
    | _ => None
    end
  end.

Definition parse_member (s : jsstring) : option (jsstring * json * jsstring) :=
  match skip_ws s with
  | 34 :: s' =>
    match parse_chars s' with
    | Some (k, rest) =>
      match skip_ws rest with
      | 58 :: rest =>
        match parse_value rest with
        | Some (v, rest) => Some (k, v, rest)
        | None => None
        end
      | _ => None
      end
    | None => None
    end
  | _ => None
  end.

(** The members of an object after the first, up to the closing brace; a
    repeated key keeps the last value. *)
Fixpoint parse_members (fuel : nat) (acc : gmap jsstring json) (s : jsstring)
  : option (json * jsstring) :=
  match fuel with
  | O => None
  | S fuel =>
    match skip_ws s with
    | 125 :: rest => Some (JObject acc, rest)
    | 44 :: rest =>
      match parse_member rest with
      | Some (k, v, rest) => parse_members fuel (<[k := v]> acc) rest
      | None => None
      end
    | _ => None
    end
  end.

End Parser.

Fixpoint parse_value (fuel : nat) (s : jsstring) : option (json * jsstring) :=
  match fuel with
  | O => None
  | S fuel =>
    match skip_ws s with
    | (110 :: _) as s => expect (js "null") JNull s
    | (116 :: _) as s => expect (js "true") (JBool true) s
    | (102 :: _) as s => expect (js "false") (JBool false) s
    | 34 :: s' =>
      match parse_chars s' with
      | Some (str, rest) => Some (JString str, rest)
      | None => None
      end
    | 91 :: s' =>
      match skip_ws s' with
      | 93 :: rest => Some (JArray [], rest)
      | _ =>
        match parse_value fuel s' with
        | Some (v, rest) => parse_elements (parse_value fuel) fuel [v] rest
        | None => None
        end
      end
    | 123 :: s' =>
      match skip_ws s' with
      | 125 :: rest => Some (JObject ∅, rest)
      | _ =>
        match parse_member (parse_value fuel) s' with
        | Some (k, v, rest) => parse_members (parse_value fuel) fuel {[k := v]} rest
        | None => None
        end
      end
    | s => match parse_int s with
           | Some (x, rest) => Some (JNumber x, rest)
           | None => None
           end
    end
  end.

Definition ref_parse (text : jsstring) : option json :=
  match parse_value (S (length text)) text with
  | Some (v, rest) => match skip_ws rest with [] => Some v | _ => None end
  | None => None
  end.

Definition reference : Platform :=
  {| SHA256 := ref_SHA256;
     AES_GCM_encrypt := ref_encrypt;
     AES_GCM_decrypt := ref_decrypt;
     JSON_stringify := ref_stringify;
     JSON_parse := ref_parse |}.

End Reference.

(** * A key-committing platform

    The reference platform with the key written in front of every
    ciphertext, so that decryption under any other key fails without
    exception. AES-GCM itself gives this only up to the chance of a forged
    tag; here it is an exact law, the one the wrong-key property is proved
    from. *)

Module Committing.
Import Crypto Reference.






End Committing.

(** * Specification vocabulary

    Definitions the statements and proofs below are written with. *)

Module Vocabulary.
Import Crypto.
Local Open Scope N_scope.

(** The 6-bit groups of a byte string, most significant first, without
    padding. *)
Fixpoint b64_digits (bs : list byte) : list N :=
  match bs with
  | [] => []
  | [a] =>
    let n := Byte.to_N a * 65536 in
    [n / 262144; n / 4096 mod 64]
  | [a; b] =>
    let n := Byte.to_N a * 65536 + Byte.to_N b * 256 in
    [n / 262144; n / 4096 mod 64; n / 64 mod 64]
  | a :: b :: c :: rest =>
    let n := Byte.to_N a * 65536 + Byte.to_N b * 256 + Byte.to_N c in
    n / 262144 :: n / 4096 mod 64 :: n / 64 mod 64 :: n mod 64 :: b64_digits rest
  end.

(** The number of [=] that [btoa] appends. *)
Fixpoint b64_padding (bs : list byte) : nat :=
  match bs with
  | [] => 0
  | [a] => 2
  | [a; b] => 1
  | a :: b :: c :: rest => b64_padding rest
  end.

(** The base64url alphabet: [A-Z a-z 0-9 - _]. *)
Definition base64url_alphabet (c : N) : bool :=
  ((65 <=? c) && (c <=? 90)) || ((97 <=? c) && (c <=? 122)) ||
  ((48 <=? c) && (c <=? 57)) || (c =? 45) || (c =? 95).

(** The base64url character of a 6-bit value. *)
Definition b64url_char (n : N) : N :=
  let c := b64_char n in
  if c =? 43 then 45 else if c =? 47 then 95 else c.

(** The characters [atob] gives a meaning: the base64url alphabet once
    [-] and [_] are replaced, [+] and [/], the padding [=], and the ASCII
    whitespace it skips. *)
Definition decodable_char (c : N) : bool :=
  base64url_alphabet c || (c =? 43) || (c =? 47) || (c =? 61) ||
  is_ascii_whitespace c.

(** The list of strings with [s] appended to its last element. *)
Fixpoint append_last (parts : list jsstring) (s : jsstring) : list jsstring :=
  match parts with
  | [] => []
  | [p] => [p ++ s]
  | p :: ps => p :: append_last ps s
  end.

(** The place of a number in the order of the numbers, as a triple compared
    from the left; [NaN] has none. *)
Definition sf_key (f : spec_float) : option (Z * Z * Z) :=
  match f with
  | S754_nan => None
  | S754_infinity true => Some (-2, 0, 0)%Z
  | S754_infinity false => Some (2, 0, 0)%Z
  | S754_zero _ => Some (0, 0, 0)%Z
  | S754_finite true m e => Some (-1, - e, - Z.pos m)%Z
  | S754_finite false m e => Some (1, e, Z.pos m)%Z
  end.

Definition key_lt (k1 k2 : Z * Z * Z) : Prop :=
  let '(a1, b1, c1) := k1 in
  let '(a2, b2, c2) := k2 in
  (a1 < a2 ∨ (a1 = a2 ∧ (b1 < b2 ∨ (b1 = b2 ∧ c1 < c2))))%Z.

Definition key_le (k1 k2 : Z * Z * Z) : Prop := key_lt k1 k2 ∨ k1 = k2.

Section WithPlatform.
Context `{Pf : Platform}.

(** The token passes the format checks of [unseal] and its second component
    decrypts, under the key derived from the secret and the nonce in its
    first component, to [plaintext]. *)
Inductive Decrypts (token secret : jsstring) (plaintext : list byte) : Prop :=
| Decrypts_intro (ivB64 ctB64 : jsstring) (iv ciphertext : list byte) :
    secret ≠ [] →
    String_split SEPARATOR token = [ivB64; ctB64] →
    base64UrlDecode ivB64 = Return iv →
    base64UrlDecode ctB64 = Return ciphertext →
    AES_GCM_decrypt (deriveKey secret) iv ciphertext = Some plaintext →
    Decrypts token secret plaintext.

(** The value survives [JSON.stringify], the UTF-8 encoding and decoding of
    the text, and [JSON.parse]. *)
Definition serializable (v : json) : Prop :=
  JSON_parse (TextDecoder_decode (TextEncoder_encode (JSON_stringify v))) = Some v.

(** Authenticated encryption is correct: under the same key and a 12-byte
    nonce, decryption returns what was encrypted. *)
Definition aead_correct : Prop :=
  ∀ key iv plaintext : list byte,
    length iv = IV_LENGTH →
    AES_GCM_decrypt key iv (AES_GCM_encrypt key iv plaintext) = Some plaintext.


End WithPlatform.
End Vocabulary.

(** * Concrete inputs

    The values of test/crypto.test.ts and the inputs the statements below
    are evaluated at. *)

Module Scenario.
Import Crypto Reference Vocabulary.

(** A world whose clock reads [t]; the random source is a fixed sequence. *)
Definition world_at (t : float) : World :=
  {| clock := t;
     entropy := λ i, byte_of_N (N.of_nat (37 * i + 11) mod 256) |}.

Definition SECRET : jsstring := js "test-secret-at-least-32-chars".

(** [{ id: 'user-1', role: 'admin' }] *)
Definition payload : gmap jsstring json :=
  <[js "id" := JString (js "user-1")]> (<[js "role" := JString (js "admin")]> ∅).

(** [{ x: 1 }] *)
Definition payload_x : gmap jsstring json := {[js "x" := JNumber 1]}.


(** The instant of sealing, in milliseconds since the epoch. *)
Definition sealed_at : float := 1700000000000.

(** A [ttlSeconds] whose thousandfold is beyond the largest number:
    2^1020. *)
Definition huge_ttl : float := 0x1p+1020.

(** A token whose second component is the AES-256-GCM encryption, under the
    key derived from [SECRET], of the four bytes of the JSON text [null]. *)
Definition null_token : jsstring :=
  js "CzBVep_E6Q4zWH2i._oBSWbuk6_lPQX-kkSozAtdC8jI".

(** Two secrets that are each one unpaired surrogate. *)
Definition lone_D800 : jsstring := [0xD800%N].
Definition lone_D801 : jsstring := [0xD801%N].

Definition hex_value_of (c : ascii) : N :=
  let n := N_of_ascii c in (if n <? 58 then n - 48 else n - 87)%N.

(** The bytes a string of hexadecimal digits denotes. *)
Fixpoint unhex (s : string) : list byte :=
  match s with
  | String a (String b r) =>
    byte_of_N (hex_value_of a * 16 + hex_value_of b)%N :: unhex r
  | _ => []
  end.

Definition utf8 (s : string) : list byte := TextEncoder_encode (js s).

End Scenario.

(** * Properties of the platform primitives *)

Section Base64.
Import Crypto Vocabulary.
Local Open Scope N_scope.

Local Ltac ndiv := zify; Z.to_euclidean_division_equations; lia.

(** Induction on a list three elements at a time. *)
Lemma list_ind3 {A : Type} (P : list A → Prop) :
  P [] → (∀ a, P [a]) → (∀ a b, P [a; b]) →
  (∀ a b c rest, P rest → P (a :: b :: c :: rest)) →
  ∀ l, P l.
Proof.
  intros H0 H1 H2 H3.
  assert (Hall : ∀ l, P l ∧ (∀ a, P (a :: l)) ∧ (∀ a b, P (a :: b :: l))).
  { induction l as [|x l (IH0 & IH1 & IH2)]; [by auto|].
    split; [apply IH1|]. split; [intros; apply IH2|].
    intros a b. by apply H3. }
  intros l. apply Hall.
Qed.

Lemma byte_to_N_lt (b : byte) : Byte.to_N b < 256.
Proof. pose proof (Byte.to_N_bounded b). lia. Qed.

Lemma byte_of_to_N (b : byte) : byte_of_N (Byte.to_N b) = b.
Proof. unfold byte_of_N. by rewrite Byte.of_to_N. Qed.

(** A property of the 64 six-bit values is checked on each of them. *)
Lemma forall_lt_64 (P : N → bool) :
  forallb P (map N.of_nat (seq 0 64)) = true → ∀ n, n < 64 → P n = true.
Proof.
  intros Hall n Hn. rewrite forallb_forall in Hall. apply Hall.
  rewrite <- (N2Nat.id n). apply in_map, in_seq. lia.
Qed.

(** What the proofs below use of the two alphabets, as one check. *)
Definition alphabet_check (n : N) : bool :=
  match b64_index (b64_char n) with Some m => m =? n | None => false end &&
  negb (b64_char n =? 61) && negb (is_ascii_whitespace (b64_char n)) &&
  base64url_alphabet (b64url_char n) &&
  negb (b64url_char n =? 61) && negb (b64url_char n =? SEPARATOR) &&
  (match replaceAll 47 95 (replaceAll 43 45 [b64_char n]) with
   | [c] => c =? b64url_char n
   | _ => false
   end) &&
  (match replaceAll 95 47 (replaceAll 45 43 [b64url_char n]) with
   | [c] => c =? b64_char n
   | _ => false
   end).

Lemma alphabet_checked (n : N) : n < 64 → alphabet_check n = true.
Proof. apply forall_lt_64. vm_compute. reflexivity. Qed.

Lemma alphabet_facts (n : N) :
  n < 64 →
  b64_index (b64_char n) = Some n ∧
  b64_char n ≠ 61 ∧ is_ascii_whitespace (b64_char n) = false ∧
  base64url_alphabet (b64url_char n) = true ∧
  b64url_char n ≠ 61 ∧ b64url_char n ≠ SEPARATOR ∧
  replaceAll 47 95 (replaceAll 43 45 [b64_char n]) = [b64url_char n] ∧
  replaceAll 95 47 (replaceAll 45 43 [b64url_char n]) = [b64_char n].
Proof.
  intros Hn%alphabet_checked. unfold alphabet_check in Hn.
  apply andb_true_iff in Hn as [Hn H8]. apply andb_true_iff in Hn as [Hn H7].
  apply andb_true_iff in Hn as [Hn H6%negb_true_iff%N.eqb_neq].
  apply andb_true_iff in Hn as [Hn H5%negb_true_iff%N.eqb_neq].
  apply andb_true_iff in Hn as [Hn H4].
  apply andb_true_iff in Hn as [Hn H3%negb_true_iff].
  apply andb_true_iff in Hn as [H1 H2%negb_true_iff%N.eqb_neq].
  repeat split; try done.
  - destruct (b64_index (b64_char n)); [|done]. by apply N.eqb_eq in H1 as ->.
  - destruct (replaceAll 47 95 _) as [|c [|??]]; try done.
    by apply N.eqb_eq in H7 as ->.
  - destruct (replaceAll 95 47 _) as [|c [|??]]; try done.
    by apply N.eqb_eq in H8 as ->.
Qed.

Lemma b64_index_char (n : N) : n < 64 → b64_index (b64_char n) = Some n.
Proof. intros Hn. by apply alphabet_facts. Qed.

Lemma b64_digits_lt (bs : list byte) : Forall (λ n, n < 64) (b64_digits bs).
Proof.
  induction bs as [|a|a b|a b c rest IH] using list_ind3;
    cbn -[N.div N.modulo N.mul]; [constructor|..].
  - pose proof (byte_to_N_lt a). repeat constructor; ndiv.
  - pose proof (byte_to_N_lt a). pose proof (byte_to_N_lt b).
    repeat constructor; ndiv.
  - pose proof (byte_to_N_lt a). pose proof (byte_to_N_lt b).
    pose proof (byte_to_N_lt c).
    repeat (constructor; [ndiv|]). exact IH.
Qed.

Lemma byte_of_N_eq (x : N) (b : byte) : x = Byte.to_N b → byte_of_N x = b.
Proof. intros ->. apply byte_of_to_N. Qed.

Lemma bytes_of_b64_digits (bs : list byte) : bytes_of_sextets (b64_digits bs) = bs.
Proof.
  induction bs as [|a|a b|a b c rest IH] using list_ind3;
    cbn -[N.div N.modulo N.mul]; [done|..].
  - pose proof (byte_to_N_lt a).
    f_equal. apply byte_of_N_eq. ndiv.
  - pose proof (byte_to_N_lt a). pose proof (byte_to_N_lt b).
    f_equal; [apply byte_of_N_eq; ndiv|].
    f_equal. apply byte_of_N_eq. ndiv.
  - pose proof (byte_to_N_lt a). pose proof (byte_to_N_lt b).
    pose proof (byte_to_N_lt c).
    repeat (f_equal; [apply byte_of_N_eq; ndiv|]). exact IH.
Qed.

Lemma btoa_digits (bs : list byte) :
  btoa bs = map b64_char (b64_digits bs) ++ replicate (b64_padding bs) 61.
Proof.
  induction bs as [|a|a b|a b c rest IH] using list_ind3;
    cbn -[N.div N.modulo N.mul]; [done..|].
  by rewrite IH.
Qed.

Lemma b64_char_cases (n : N) :
  n < 64 →
  b64_char n ≠ 61 ∧ is_ascii_whitespace (b64_char n) = false.
Proof. intros Hn. split; by apply alphabet_facts. Qed.

Lemma b64url_char_cases (n : N) :
  n < 64 →
  base64url_alphabet (b64url_char n) = true ∧
  b64url_char n ≠ 61 ∧ b64url_char n ≠ SEPARATOR.
Proof. intros Hn. repeat split; by apply alphabet_facts. Qed.

Lemma replaceAll_b64_char (n : N) :
  n < 64 → replaceAll 47 95 (replaceAll 43 45 [b64_char n]) = [b64url_char n].
Proof. intros Hn. by apply alphabet_facts. Qed.

Lemma replaceAll_b64url_char (n : N) :
  n < 64 → replaceAll 95 47 (replaceAll 45 43 [b64url_char n]) = [b64_char n].
Proof. intros Hn. by apply alphabet_facts. Qed.

Lemma replaceAll_app (a b : N) (s1 s2 : jsstring) :
  replaceAll a b (s1 ++ s2) = replaceAll a b s1 ++ replaceAll a b s2.
Proof. apply map_app. Qed.

Lemma replaceAll_replicate (a b c : N) (k : nat) :
  c ≠ a → replaceAll a b (replicate k c) = replicate k c.
Proof.
  intros Hc%N.eqb_neq. unfold replaceAll.
  induction k as [|k IH]; cbn; [done|]. by rewrite Hc, IH.
Qed.

Lemma strip_trailing_padding (c : N) (s : jsstring) (k : nat) :
  Forall (λ x, x ≠ c) s → strip_trailing c (s ++ replicate k c) = s.
Proof.
  intros Hs. induction Hs as [|x s Hx Hs IH]; cbn.
  - induction k as [|k IH]; cbn; [done|]. rewrite IH. by rewrite N.eqb_refl.
  - rewrite IH. destruct s; [|done].
    by apply N.eqb_neq in Hx as ->.
Qed.

Lemma replaceAll_digits_encode (ds : list N) :
  Forall (λ n, n < 64) ds →
  replaceAll 47 95 (replaceAll 43 45 (map b64_char ds)) = map b64url_char ds.
Proof.
  induction 1 as [|n ds Hn Hds IH]; [done|].
  change (map b64_char (n :: ds)) with ([b64_char n] ++ map b64_char ds).
  rewrite !replaceAll_app, IH. by rewrite replaceAll_b64_char.
Qed.

Lemma replaceAll_digits_decode (ds : list N) :
  Forall (λ n, n < 64) ds →
  replaceAll 95 47 (replaceAll 45 43 (map b64url_char ds)) = map b64_char ds.
Proof.
  induction 1 as [|n ds Hn Hds IH]; [done|].
  change (map b64url_char (n :: ds)) with ([b64url_char n] ++ map b64url_char ds).
  rewrite !replaceAll_app, IH. by rewrite replaceAll_b64url_char.
Qed.

Lemma base64UrlEncode_digits (bs : list byte) :
  base64UrlEncode bs = map b64url_char (b64_digits bs).
Proof.
  unfold base64UrlEncode. rewrite btoa_digits, !replaceAll_app.
  rewrite replaceAll_digits_encode by apply b64_digits_lt.
  rewrite !replaceAll_replicate by done.
  apply strip_trailing_padding, Forall_map.
  eapply Forall_impl; [apply b64_digits_lt|].
  intros n Hn. cbn. by apply b64url_char_cases.
Qed.

Lemma base64UrlEncode_alphabet (bs : list byte) :
  forallb base64url_alphabet (base64UrlEncode bs) = true.
Proof.
  rewrite base64UrlEncode_digits. apply forallb_forall.
  intros c [n [<- Hn]]%in_map_iff. apply b64url_char_cases.
  pose proof (b64_digits_lt bs) as Hall. rewrite Forall_forall in Hall.
  apply Hall. by apply list_elem_of_In.
Qed.

Lemma base64UrlEncode_no_separator (bs : list byte) :
  Forall (λ c, c ≠ SEPARATOR) (base64UrlEncode bs).
Proof.
  rewrite base64UrlEncode_digits. apply Forall_map.
  eapply Forall_impl; [apply b64_digits_lt|].
  intros n Hn. by apply b64url_char_cases.
Qed.

Lemma sextets_b64_char (ds : list N) :
  Forall (λ n, n < 64) ds → sextets (map b64_char ds) = Some ds.
Proof.
  induction 1 as [|n ds Hn Hds IH]; cbn; [done|].
  by rewrite b64_index_char, IH.
Qed.

Lemma filter_whitespace_b64 (ds : list N) :
  Forall (λ n, n < 64) ds →
  List.filter (λ c, negb (is_ascii_whitespace c)) (map b64_char ds) = map b64_char ds.
Proof.
  induction 1 as [|n ds Hn Hds IH]; cbn; [done|].
  destruct (b64_char_cases n Hn) as (_ & ->). cbn. by rewrite IH.
Qed.

Lemma remove_padding_b64 (ds : list N) :
  Forall (λ n, n < 64) ds → remove_padding (map b64_char ds) = map b64_char ds.
Proof.
  intros Hds. unfold remove_padding.
  destruct (rev (map b64_char ds)) as [|x r] eqn:Hrev; [done|].
  assert (Hx : x ≠ 61).
  { assert (Hin : In x (map b64_char ds)).
    { apply in_rev. rewrite Hrev. by left. }
    apply in_map_iff in Hin as [n [<- Hn]].
    rewrite Forall_forall in Hds.
    apply b64_char_cases, Hds. by apply list_elem_of_In. }
  apply N.eqb_neq in Hx. rewrite Hx. by destruct r.
Qed.

Lemma b64_digits_length (bs : list byte) :
  N.of_nat (length (b64_digits bs)) mod 4 ≠ 1.
Proof.
  induction bs as [|a|a b|a b c rest IH] using list_ind3;
    cbn [b64_digits length]; [done..|].
  intros Heq. apply IH. revert Heq.
  generalize (length (b64_digits rest)). intros n. ndiv.
Qed.

(** Decoding undoes encoding, for every byte string. *)
Lemma base64UrlDecode_Encode (bs : list byte) :
  base64UrlDecode (base64UrlEncode bs) = Return bs.
Proof.
  rewrite base64UrlEncode_digits. unfold base64UrlDecode.
  pose proof (b64_digits_lt bs) as Hlt.
  rewrite replaceAll_digits_decode by done.
  unfold atob.
  rewrite filter_whitespace_b64 by done.
  pose proof (b64_digits_length bs) as Hlen.
  rewrite length_map.
  destruct (N.eqb_spec (N.of_nat (length (b64_digits bs)) mod 4) 0) as [H0|H0].
  - rewrite remove_padding_b64 by done. rewrite length_map.
    apply N.eqb_neq in Hlen as ->.
    by rewrite sextets_b64_char, bytes_of_b64_digits.
  - rewrite length_map. apply N.eqb_neq in Hlen as ->.
    by rewrite sextets_b64_char, bytes_of_b64_digits.
Qed.

(** ** [split] on a token of two separator-free components *)

Lemma String_split_no_sep (sep : N) (s : jsstring) :
  Forall (λ c, c ≠ sep) s → String_split sep s = [s].
Proof.
  induction 1 as [|c s Hc Hs IH]; cbn; [done|].
  apply N.eqb_neq in Hc as ->. by rewrite IH.
Qed.

Lemma String_split_join (sep : N) (s1 s2 : jsstring) :
  Forall (λ c, c ≠ sep) s1 → Forall (λ c, c ≠ sep) s2 →
  String_split sep (s1 ++ sep :: s2) = [s1; s2].
Proof.
  intros Hs1 Hs2. induction Hs1 as [|c s Hc Hs IH]; cbn.
  - by rewrite N.eqb_refl, String_split_no_sep.
  - apply N.eqb_neq in Hc as ->. by rewrite IH.
Qed.

End Base64.

(** * The order of the numbers *)

Section NumberOrder.
Import Vocabulary.
Local Open Scope Z_scope.

Local Ltac compare_cases :=
  repeat match goal with
         | |- context [Z.compare ?a ?b] => destruct (Z.compare_spec a b)
         | |- context [Pos.compare_cont Eq ?a ?b] =>
             change (Pos.compare_cont Eq a b) with (Pos.compare a b);
             destruct (Pos.compare_spec a b)
         end.

Lemma SFltb_key (f1 f2 : spec_float) :
  SFltb f1 f2 = true ↔
  ∃ k1 k2, sf_key f1 = Some k1 ∧ sf_key f2 = Some k2 ∧ key_lt k1 k2.
Proof.
  unfold SFltb, SFcompare.
  destruct f1 as [[|]|[|]| |[|] m1 e1], f2 as [[|]|[|]| |[|] m2 e2];
    cbn [sf_key]; compare_cases;
    (split;
     [ intros Hcmp;
       first [ discriminate Hcmp
             | eexists _, _; split; [reflexivity|]; split; [reflexivity|];
               cbn; lia ]
     | intros (k1 & k2 & Hk1 & Hk2 & Hlt);
       first [ discriminate Hk1 | discriminate Hk2
             | injection Hk1 as <-; injection Hk2 as <-; cbn in Hlt; cbn;
               first [ reflexivity | lia ] ] ]).
Qed.

Lemma SFleb_key (f1 f2 : spec_float) :
  SFleb f1 f2 = true ↔
  ∃ k1 k2, sf_key f1 = Some k1 ∧ sf_key f2 = Some k2 ∧ key_le k1 k2.
Proof.
  unfold SFleb, SFcompare, key_le.
  destruct f1 as [[|]|[|]| |[|] m1 e1], f2 as [[|]|[|]| |[|] m2 e2];
    cbn [sf_key]; compare_cases;
    (split;
     [ intros Hcmp;
       first [ discriminate Hcmp
             | eexists _, _; split; [reflexivity|]; split; [reflexivity|];
               first [ left; cbn; lia | right; subst; reflexivity ] ]
     | cbn; intros (k1 & k2 & Hk1 & Hk2 & Hle);
       first [ discriminate Hk1 | discriminate Hk2
             | injection Hk1 as <-; injection Hk2 as <-;
               first [ reflexivity
                     | destruct Hle as [Hlt|Heq];
                       [ cbn in Hlt; lia
                       | solve [ simplify_eq | simplify_eq; lia ] ] ] ] ]).
Qed.

Lemma float_ltb_key (x y : float) :
  (x <? y)%float = true ↔
  ∃ k1 k2, sf_key (Prim2SF x) = Some k1 ∧ sf_key (Prim2SF y) = Some k2 ∧ key_lt k1 k2.
Proof. rewrite FloatAxioms.ltb_spec. apply SFltb_key. Qed.

Lemma float_leb_key (x y : float) :
  (x <=? y)%float = true ↔
  ∃ k1 k2, sf_key (Prim2SF x) = Some k1 ∧ sf_key (Prim2SF y) = Some k2 ∧ key_le k1 k2.
Proof. rewrite FloatAxioms.leb_spec. apply SFleb_key. Qed.

Local Ltac order_facts :=
  repeat match goal with
         | H : (_ <? _)%float = true |- _ =>
             apply float_ltb_key in H as (? & ? & ? & ? & H)
         | H : (_ <=? _)%float = true |- _ =>
             apply float_leb_key in H as (? & ? & ? & ? & H)
         end;
  simplify_eq;
  repeat match goal with
         | k : (Z * Z * Z)%type |- _ => destruct k as [[? ?] ?]
         end;
  unfold key_le, key_lt in *.

(** [x < x] is false. *)
Lemma float_ltb_irrefl (x : float) : (x <? x)%float = false.
Proof.
  destruct (x <? x)%float eqn:H; [|done]. order_facts. lia.
Qed.

(** [x < y] excludes [y < x]. *)
Lemma float_ltb_asym (x y : float) :
  (x <? y)%float = true → (y <? x)%float = false.
Proof.
  intros H1. destruct (y <? x)%float eqn:H2; [|done]. order_facts. lia.
Qed.

(** [x <= y] excludes [y < x]. *)
Lemma float_leb_not_ltb (x y : float) :
  (x <=? y)%float = true → (y <? x)%float = false.
Proof.
  intros H1. destruct (y <? x)%float eqn:H2; [|done]. order_facts.
  destruct H1 as [H1|H1]; [lia|]. simplify_eq. lia.
Qed.

(** If [e < n] is false and [n' <= n], then [e < n'] is false. *)
Lemma float_not_ltb_earlier (e n n' : float) :
  (e <? n)%float = false → (n' <=? n)%float = true → (e <? n')%float = false.
Proof.
  intros H1 H2. destruct (e <? n')%float eqn:H3; [|done].
  assert (Hlt : (e <? n)%float = true); [|congruence].
  apply float_ltb_key. order_facts.
  eexists _, _. split; [done|]. split; [done|].
  destruct H2 as [H2|H2]; [cbn; lia|]. simplify_eq. cbn. lia.
Qed.

End NumberOrder.

(** * Properties of [seal] and [unseal], for every platform *)

Section CodecProperties.
Import Crypto Vocabulary.
Context `{Pf : Platform}.

(** The envelope [seal] encrypts: the payload with [_exp] set. *)
Lemma seal_token (payload : gmap jsstring json) (secret : jsstring)
    (ttl : option float) (w : World) :
  let iv := (getRandomValues IV_LENGTH w).1 in
  let exp := (Date_now w + default TTL_DEFAULT ttl * 1000)%float in
  let plaintext :=
    TextEncoder_encode (JSON_stringify (JObject (<[_exp := JNumber exp]> payload))) in
  (seal payload secret ttl w).1 =
  base64UrlEncode iv ++
  SEPARATOR :: base64UrlEncode (AES_GCM_encrypt (deriveKey secret) iv plaintext).
Proof. reflexivity. Qed.

Lemma getRandomValues_length (n : nat) (w : World) :
  length (getRandomValues n w).1 = n.
Proof. cbn. by rewrite length_map, length_seq. Qed.

Lemma seal_split (payload : gmap jsstring json) (secret : jsstring)
    (ttl : option float) (w : World) :
  let iv := (getRandomValues IV_LENGTH w).1 in
  let exp := (Date_now w + default TTL_DEFAULT ttl * 1000)%float in
  let plaintext :=
    TextEncoder_encode (JSON_stringify (JObject (<[_exp := JNumber exp]> payload))) in
  String_split SEPARATOR (seal payload secret ttl w).1 =
  [base64UrlEncode iv;
   base64UrlEncode (AES_GCM_encrypt (deriveKey secret) iv plaintext)].
Proof.
  cbv zeta. rewrite seal_token.
  apply String_split_join; apply base64UrlEncode_no_separator.
Qed.

(** What [unseal] computes once the token has passed the format checks and
    decryption. *)
Lemma unseal_decrypts (token secret : jsstring) (plaintext : list byte) (w : World) :
  Decrypts token secret plaintext →
  unseal (Some token) secret w =
  match JSON_parse (TextDecoder_decode plaintext) with
  | None => Return None
  | Some data =>
    match get_exp data with
    | Throw e => Throw e
    | Return (Some (JNumber exp)) =>
      if (exp <? Date_now w)%float then Return None
      else Return (Some (delete_exp data))
    | Return _ => Return None
    end
  end.
Proof.
  intros [ivB64 ctB64 iv ciphertext Hsecret Hsplit Hiv Hct Hdec].
  destruct token as [|c token]; [done|].
  destruct secret as [|d secret]; [done|].
  unfold unseal. rewrite Hsplit, Hiv, Hct. unfold toArrayBuffer.
  by rewrite Hdec.
Qed.

(** The token of [seal] opens, under the same secret, to the plaintext that
    was encrypted. *)
Lemma seal_decrypts (payload : gmap jsstring json) (secret : jsstring)
    (ttl : option float) (w : World) :
  aead_correct → secret ≠ [] →
  Decrypts (seal payload secret ttl w).1 secret
    (TextEncoder_encode (JSON_stringify (JObject
       (<[_exp := JNumber (Date_now w + default TTL_DEFAULT ttl * 1000)%float]> payload)))).
Proof.
  intros Haead Hsecret.
  eapply Decrypts_intro; [done|apply seal_split|apply base64UrlDecode_Encode..|].
  apply Haead, getRandomValues_length.
Qed.

(** [unseal] after [seal] under the same secret, when the envelope is
    serializable: the outcome is decided by the clock alone. *)
Lemma unseal_seal (payload : gmap jsstring json) (secret : jsstring)
    (ttl : option float) (w w' : World) :
  aead_correct → secret ≠ [] →
  let exp := (Date_now w + default TTL_DEFAULT ttl * 1000)%float in
  serializable (JObject (<[_exp := JNumber exp]> payload)) →
  unseal (Some (seal payload secret ttl w).1) secret w' =
  if (exp <? Date_now w')%float then Return None
  else Return (Some (JObject (delete _exp payload))).
Proof.
  intros Haead Hsecret exp Hser.
  rewrite (unseal_decrypts _ _ _ _ (seal_decrypts payload secret ttl w Haead Hsecret)).
  fold exp. unfold serializable in Hser. rewrite Hser. cbn [get_exp delete_exp].
  rewrite lookup_insert_eq. by rewrite delete_insert_eq.
Qed.

(** C1 (amended). Round trip: for a payload without the reserved [_exp] key,
    a non-empty secret and a [ttlSeconds] greater than zero such that the
    sealed envelope (the payload with the computed expiration
    [Date.now() + ttlSeconds * 1000]) is JSON-serializable, [unseal] of the
    sealed token under the same secret, at any instant before the
    expiration, returns a mapping equal to the payload, and [_exp] is not a
    key of the returned mapping. *)
Theorem seal_unseal_roundtrip (P : gmap jsstring json) (S : jsstring) (T : float)
    (w w' : World) :
  aead_correct →
  P !! _exp = None →
  S ≠ [] →
  (0 <? T)%float = true →
  serializable (JObject (<[_exp := JNumber (Date_now w + T * 1000)%float]> P)) →
  (Date_now w' <? Date_now w + T * 1000)%float = true →
  ∃ m : gmap jsstring json,
    unseal (Some (seal P S (Some T) w).1) S w' = Return (Some (JObject m)) ∧
    m = P ∧ m !! _exp = None.
Proof.
  intros Haead HP HS HT Hser Hnow. exists P. split; [|done].
  rewrite unseal_seal by done. change (default TTL_DEFAULT (Some T)) with T.
  rewrite (float_ltb_asym _ _ Hnow).
  by rewrite delete_id.
Qed.

(** [unseal] throws in one case only: the token decrypts to the JSON text
    of [null], and then it throws a [TypeError]. *)
Lemma unseal_throws (token : option jsstring) (secret : jsstring) (w : World)
    (e : Error) :
  unseal token secret w = Throw e ↔
  e = TypeError ∧
  ∃ (t : jsstring) (plaintext : list byte),
    token = Some t ∧ Decrypts t secret plaintext ∧
    JSON_parse (TextDecoder_decode plaintext) = Some JNull.
Proof.
  split.
  - destruct token as [[|c t]|]; [done| |done].
    destruct secret as [|d secret]; [done|].
    unfold unseal.
    destruct (String_split SEPARATOR (c :: t)) as [|ivB64 [|ctB64 [|??]]] eqn:Hsplit;
      try done.
    destruct (base64UrlDecode ivB64) as [iv|] eqn:Hiv; [|done].
    destruct (base64UrlDecode ctB64) as [ciphertext|] eqn:Hct; [|done].
    unfold toArrayBuffer.
    destruct (AES_GCM_decrypt _ iv ciphertext) as [plaintext|] eqn:Hdec; [|done].
    destruct (JSON_parse _) as [data|] eqn:Hparse; [|done].
    destruct data as [|b|z|s|l|m]; cbn [get_exp]; try done.
    + intros [= <-]. split; [done|]. exists (c :: t), plaintext.
      split; [done|]. split; [|done]. by econstructor.
    + destruct (m !! _exp) as [[|?|exp|?|?|?]|]; try done. by case_match.
  - intros (-> & t & plaintext & -> & Hdec & Hparse).
    rewrite (unseal_decrypts _ _ _ _ Hdec), Hparse. done.
Qed.

(** C3 (amended). For a token that decrypts to a JSON object, [unseal]
    returns the invalid sentinel when the embedded [_exp] is absent, is not
    a number, or is strictly less than the current time; when [_exp] equals
    the current time (or is not less than it) the token is still accepted
    and the object without [_exp] is returned. *)
Theorem unseal_expiration_check (token secret : jsstring) (plaintext : list byte)
    (m : gmap jsstring json) (w : World) :
  Decrypts token secret plaintext →
  JSON_parse (TextDecoder_decode plaintext) = Some (JObject m) →
  (∀ exp : float, m !! _exp = Some (JNumber exp) → (exp <? Date_now w)%float = true →
     unseal (Some token) secret w = Return None) ∧
  (∀ exp : float, m !! _exp = Some (JNumber exp) → (exp <? Date_now w)%float = false →
     unseal (Some token) secret w = Return (Some (JObject (delete _exp m)))) ∧
  (∀ exp : float, m !! _exp = Some (JNumber exp) → (Date_now w <=? exp)%float = true →
     unseal (Some token) secret w = Return (Some (JObject (delete _exp m)))) ∧
  (m !! _exp = Some (JNumber (Date_now w)) →
     unseal (Some token) secret w = Return (Some (JObject (delete _exp m)))) ∧
  ((∀ exp : float, m !! _exp ≠ Some (JNumber exp)) →
     unseal (Some token) secret w = Return None).
Proof.
  intros Hdec Hparse.
  rewrite (unseal_decrypts _ _ _ _ Hdec), Hparse. cbn [get_exp delete_exp].
  repeat split.
  - by intros exp -> ->.
  - by intros exp -> ->.
  - intros exp -> Hle. by rewrite (float_leb_not_ltb _ _ Hle).
  - intros ->. by rewrite float_ltb_irrefl.
  - intros Hnot. destruct (m !! _exp) as [[|?|exp|?|?|?]|]; try done.
    by destruct (Hnot exp).
Qed.

(** C4. For a token that decrypts, [unseal] returns the invalid sentinel
    when the plaintext does not parse as JSON and when it parses to a
    boolean, a number, a string or an array; when it parses to [null],
    [unseal] does not return: reading [data._exp] throws a [TypeError]. *)
Theorem unseal_non_mapping (token secret : jsstring) (plaintext : list byte)
    (w : World) :
  Decrypts token secret plaintext →
  (JSON_parse (TextDecoder_decode plaintext) = None →
     unseal (Some token) secret w = Return None) ∧
  (∀ v : json,
     JSON_parse (TextDecoder_decode plaintext) = Some v →
     match v with
     | JBool _ | JNumber _ | JString _ | JArray _ =>
         unseal (Some token) secret w = Return None
     | JNull => unseal (Some token) secret w = Throw TypeError
     | JObject _ => True
     end).
Proof.
  intros Hdec. rewrite (unseal_decrypts _ _ _ _ Hdec). split.
  - by intros ->.
  - intros v ->. by destruct v.
Qed.


(** C6. Malformed input: [unseal] returns the invalid sentinel when the
    token is absent, when it is the empty string, when the secret is empty
    (whatever the token), and when splitting the token on ['.'] does not
    give exactly two components, as for ["not-dot-separated"] and
    ["a.b.c"]. *)
Theorem unseal_malformed (secret : jsstring) (w : World) :
  unseal None secret w = Return None ∧
  unseal (Some []) secret w = Return None ∧
  (∀ token : option jsstring, unseal token [] w = Return None) ∧
  (∀ token : jsstring,
     length (String_split SEPARATOR token) ≠ 2%nat →
     unseal (Some token) secret w = Return None) ∧
  unseal (Some (js "not-dot-separated")) secret w = Return None ∧
  unseal (Some (js "a.b.c")) secret w = Return None.
Proof.
  assert (Hsplit : ∀ token : jsstring,
             length (String_split SEPARATOR token) ≠ 2%nat →
             unseal (Some token) secret w = Return None).
  { intros token Hlen. destruct token as [|c token]; [done|].
    destruct secret as [|d secret]; [done|]. unfold unseal.
    by destruct (String_split SEPARATOR (c :: token)) as [|? [|? [|??]]]. }
  repeat split; try done.
  - by intros [[|??]|].
  - by apply Hsplit.
  - by apply Hsplit.
Qed.


Lemma count_occ_no_separator (s : jsstring) :
  Forall (λ c, c ≠ SEPARATOR) s → count_occ N.eq_dec s SEPARATOR = 0%nat.
Proof.
  intros Hs. apply count_occ_not_In. intros Hin%list_elem_of_In.
  rewrite Forall_forall in Hs. by apply (Hs SEPARATOR).
Qed.

(** C8. Token wire format: the string [seal] returns is the base64url
    encoding of the initialization vector (the 12 bytes [seal] drew from
    the random source and encrypted with), one ['.'], and the base64url
    encoding of the ciphertext with its tag; that ['.'] is the only one in
    the token, so splitting on ['.'] gives exactly the two components; both
    are over the unpadded base64url alphabet ([A-Z a-z 0-9 - _], so no
    ['+'], ['/'] or ['=']); base64url-decoding the first gives exactly the
    12 bytes of the initialization vector, and decoding the second gives
    the ciphertext. *)
Theorem seal_token_wire_format (P : gmap jsstring json) (S : jsstring)
    (T : option float) (w : World) :
  let iv := map (entropy w) (seq 0 12) in
  let exp := (Date_now w + default TTL_DEFAULT T * 1000)%float in
  let plaintext :=
    TextEncoder_encode (JSON_stringify (JObject (<[_exp := JNumber exp]> P))) in
  let ciphertext := AES_GCM_encrypt (deriveKey S) iv plaintext in
  ∃ ivB64 ctB64 : jsstring,
    (seal P S T w).1 = ivB64 ++ SEPARATOR :: ctB64 ∧
    count_occ N.eq_dec (seal P S T w).1 SEPARATOR = 1%nat ∧
    String_split SEPARATOR (seal P S T w).1 = [ivB64; ctB64] ∧
    forallb base64url_alphabet ivB64 = true ∧
    forallb base64url_alphabet ctB64 = true ∧
    ivB64 = base64UrlEncode iv ∧
    ctB64 = base64UrlEncode ciphertext ∧
    base64UrlDecode ivB64 = Return iv ∧
    base64UrlDecode ctB64 = Return ciphertext ∧
    length iv = 12%nat.
Proof.
  cbv zeta. eexists _, _. split; [apply seal_token|].
  split.
  { rewrite seal_token, count_occ_app, count_occ_cons_eq by done.
    by rewrite !count_occ_no_separator by apply base64UrlEncode_no_separator. }
  split; [apply seal_split|].
  split; [apply base64UrlEncode_alphabet|].
  split; [apply base64UrlEncode_alphabet|].
  split; [reflexivity|]. split; [reflexivity|].
  split; [apply base64UrlDecode_Encode|].
  split; [apply base64UrlDecode_Encode|].
  reflexivity.
Qed.

End CodecProperties.

(** * The reference platform meets the contract *)

Section ReferenceLaws.
Import Crypto Vocabulary Reference.
Local Open Scope nat_scope.

Lemma all_bytes (P : byte → bool) :
  forallb (λ n, P (byte_of_N (N.of_nat n))) (seq 0 256) = true → ∀ b, P b = true.
Proof.
  intros Hall b. rewrite forallb_forall in Hall.
  rewrite <- (byte_of_to_N b), <- (N2Nat.id (Byte.to_N b)).
  apply Hall, in_seq. pose proof (byte_to_N_lt b). lia.
Qed.

Lemma bxor_involutive (x y : byte) : bxor (bxor x y) y = x.
Proof.
  apply Byte.byte_dec_bl.
  assert (Hcheck : ∀ x, forallb (λ n, let y := byte_of_N (N.of_nat n) in
                                      Byte.eqb (bxor (bxor x y) y) x) (seq 0 256) = true).
  { apply all_bytes. vm_compute. reflexivity. }
  by apply (all_bytes (λ y, Byte.eqb (bxor (bxor x y) y) x)).
Qed.

Lemma xor_bytes_length (a b : list byte) :
  length a ≤ length b → length (xor_bytes a b) = length a.
Proof. intros Hlen. unfold xor_bytes. rewrite length_zip_with. lia. Qed.

Lemma xor_bytes_involutive (a b : list byte) :
  length a ≤ length b → xor_bytes (xor_bytes a b) b = a.
Proof.
  revert b. induction a as [|x a IH]; intros [|y b] Hlen; cbn in *; try done; [lia|].
  rewrite bxor_involutive. f_equal. apply IH. lia.
Qed.

Lemma be_bytes_length (k : nat) (x : N) : length (be_bytes k x) = k.
Proof. unfold be_bytes. by rewrite length_map, length_seq. Qed.

Lemma keystream_length (w : list (list N)) (icb : N) (n : nat) :
  length (keystream w icb n) = n.
Proof.
  unfold keystream. rewrite length_take.
  assert (Hlen : ∀ k start,
             length (concat (map (λ i, be_bytes 16 (encrypt_block w (Nat.iter i inc32 icb)))
                                 (seq start k))) = 16 * k).
  { induction k as [|k IH]; intros start; [done|].
    cbn [seq map concat]. rewrite length_app, be_bytes_length, IH. lia. }
  rewrite Hlen.
  pose proof (Nat.div_mod_eq n 16). pose proof (Nat.mod_upper_bound n 16). lia.
Qed.

Lemma gcm_keystream_length (key iv : list byte) (n : nat) :
  length (gcm_keystream key iv n) = n.
Proof. unfold gcm_keystream. by rewrite length_map, keystream_length. Qed.

Lemma gcm_tag_length (key iv ciphertext : list byte) :
  length (gcm_tag key iv ciphertext) = 16.
Proof. unfold gcm_tag. by rewrite length_map, be_bytes_length. Qed.

(** Decryption under the key and nonce of the encryption returns the
    plaintext. *)
Lemma ref_decrypt_encrypt (key iv plaintext : list byte) :
  iv ≠ [] → ref_decrypt key iv (ref_encrypt key iv plaintext) = Some plaintext.
Proof.
  intros Hiv. unfold ref_decrypt, ref_encrypt.
  destruct iv as [|i iv]; [done|].
  set (ks := gcm_keystream key (i :: iv)).
  assert (Hct : length (xor_bytes plaintext (ks (length plaintext))) = length plaintext).
  { apply xor_bytes_length. unfold ks. by rewrite gcm_keystream_length. }
  set (ciphertext := xor_bytes plaintext (ks (length plaintext))) in *.
  pose proof (gcm_tag_length key (i :: iv) ciphertext) as Htag.
  rewrite length_app, Htag.
  destruct (Nat.ltb_spec (length ciphertext + 16) 16) as [?|_]; [lia|].
  replace (length ciphertext + 16 - 16) with (length ciphertext) by lia.
  rewrite take_app_length, drop_app_length.
  rewrite bool_decide_eq_true_2 by done.
  f_equal. rewrite Hct. unfold ciphertext.
  apply xor_bytes_involutive. unfold ks. by rewrite gcm_keystream_length.
Qed.

Lemma reference_aead_correct : aead_correct (Pf := reference).
Proof.
  intros key iv plaintext Hiv. apply ref_decrypt_encrypt.
  by destruct iv.
Qed.

End ReferenceLaws.

(** * The key-committing platform binds the key *)

Section CommittingLaws.
Import Crypto Vocabulary Reference Committing.




End CommittingLaws.

(** * The reference platform on published test vectors *)

Section TestVectors.
Import Crypto Reference Vocabulary Scenario.

(** FIPS 180-4: SHA-256 of ["abc"]. *)
Example sha256_abc :
  ref_SHA256 (utf8 "abc") =
  unhex "ba7816bf8f01cfea414140de5dae2223b00361a396177a9cb410ff61f20015ad".
Proof. vm_compute. reflexivity. Qed.

(** FIPS 197, appendix C.3: AES-256 on one block. *)
Example aes256_block :
  map byte_of_N
    (Cipher (KeyExpansion (map Byte.to_N
               (unhex "000102030405060708090a0b0c0d0e0f101112131415161718191a1b1c1d1e1f")))
            (map Byte.to_N (unhex "00112233445566778899aabbccddeeff"))) =
  unhex "8ea2b7ca516745bfeafc49904b496089".
Proof. vm_compute. reflexivity. Qed.

(** The GCM specification's test cases 13 and 14: the zero key and nonce,
    on the empty plaintext and on one zero block. *)
Example gcm_test_case_13 :
  ref_encrypt (repeat x00 32) (repeat x00 12) [] =
  unhex "530f8afbc74536b9a963b4f1c4cb738b".
Proof. vm_compute. reflexivity. Qed.

Example gcm_test_case_14 :
  ref_encrypt (repeat x00 32) (repeat x00 12) (repeat x00 16) =
  unhex "cea7403d4d606b6e074ec5d3baf39d18d0d1c8a799996bf0265b98b5d48ab919".
Proof. vm_compute. reflexivity. Qed.

(** Test case 15: a 64-byte plaintext under a non-zero key and nonce. *)
Example gcm_test_case_15 :
  ref_encrypt
    (unhex "feffe9928665731c6d6a8f9467308308feffe9928665731c6d6a8f9467308308")
    (unhex "cafebabefacedbaddecaf888")
    (unhex ("d9313225f88406e5a55909c5aff5269a86a7a9531534f7da2e4c303d8a318a72" ++
            "1c3c0c95956809532fcf0e2449a6b525b16aedf5aa0de657ba637b391aafd255")) =
  unhex ("522dc1f099567d07f47f37a32a84427d643a8cdcbfe5c0c97598a2bd2555d1aa" ++
         "8cb08e48590dbb3da7b08b1056828838c5f61e6393ba7a0abcc9f662898015ad" ++
         "b094dac5d93471bdec1a502270e3cc6c").
Proof. vm_compute. reflexivity. Qed.

(** [JSON.stringify], the UTF-8 codec and [JSON.parse] on the sealed
    envelope of the test payload. *)
Example json_envelope :
  serializable (Pf := reference) (JObject (<[_exp := JNumber 1700000060000]> payload)).
Proof. vm_compute. reflexivity. Qed.

(** [JSON.parse] on texts that are not JSON, and on [null]. *)
Example json_parse_errors :
  ref_parse [] = None ∧ ref_parse (js "{") = None ∧
  ref_parse (js "[1,]") = None ∧ ref_parse (js "nul") = None ∧
  ref_parse (js " null ") = Some JNull.
Proof. vm_compute. repeat split. Qed.

End TestVectors.

(** * Properties of [getCookieOptions] *)

Section AdapterProperties.
Import Adapters.

(** The tests of test/adapters.test.ts, run on the embedding. *)
Example test_defaults :
  let opts := getCookieOptions next None in
  httpOnly opts = Value true ∧ secure opts = Value true ∧
  sameSite opts = Value lax ∧ path opts = Value (js "/").
Proof. repeat split. Qed.

Example test_express_ms :
  maxAge (getCookieOptions express
            (Some {| ttlSeconds := Value 60%float; rest := empty_options |}))
  = Value 60000%float.
Proof. reflexivity. Qed.

Example test_seconds :
  maxAge (getCookieOptions next
            (Some {| ttlSeconds := Value 60%float; rest := empty_options |}))
  = Value 60%float ∧
  maxAge (getCookieOptions hono
            (Some {| ttlSeconds := Value 120%float; rest := empty_options |}))
  = Value 120%float ∧
  maxAge (getCookieOptions standard
            (Some {| ttlSeconds := Value 300%float; rest := empty_options |}))
  = Value 300%float.
Proof. repeat split. Qed.

Example test_overrides_merge :
  let opts := getCookieOptions next
      (Some {| ttlSeconds := Value 90%float;
               rest := {| name := Value (js "session"); value := Absent;
                          domain := Absent; path := Value (js "/api");
                          maxAge := Absent; httpOnly := Absent; secure := Absent;
                          sameSite := Absent |} |}) in
  name opts = Value (js "session") ∧ path opts = Value (js "/api") ∧
  maxAge opts = Value 90%float.
Proof. repeat split. Qed.

Example test_clear :
  let opts := clearCookieOptions next None in
  maxAge opts = Value 0%float ∧ value opts = Value [].
Proof. repeat split. Qed.

(** The multiplication is the one of the language: the largest safe integer
    of seconds gives a rounded number of milliseconds, and a [ttlSeconds]
    of 2^1020 gives [Infinity]. *)
Example test_express_rounds :
  maxAge (getCookieOptions express
            (Some {| ttlSeconds := Value 9007199254740991%float;
                     rest := empty_options |}))
  = Value 9007199254740990976%float ∧
  maxAge (getCookieOptions express
            (Some {| ttlSeconds := Value 0x1p+1020%float; rest := empty_options |}))
  = Value infinity.
Proof. split; reflexivity. Qed.

(** An override that is present with the value [undefined] replaces the
    default all the same. *)
Example test_undefined_override :
  path (getCookieOptions next
          (Some {| ttlSeconds := Absent;
                   rest := {| name := Absent; value := Absent; domain := Absent;
                              path := Undefined; maxAge := Absent;
                              httpOnly := Absent; secure := Absent;
                              sameSite := Absent |} |}))
  = Undefined.
Proof. reflexivity. Qed.

(** Every field of the record [getCookieOptions] returns. *)
Lemma getCookieOptions_fields (adapter : Adapter) (ttl : property float)
    (r : CookieOptions) :
  let opts := getCookieOptions adapter (Some {| ttlSeconds := ttl; rest := r |}) in
  name opts = name r ∧ value opts = value r ∧ domain opts = domain r ∧
  path opts = match path r with Absent => Value (js "/") | p => p end ∧
  httpOnly opts = match httpOnly r with Absent => Value true | p => p end ∧
  secure opts = match secure r with Absent => Value true | p => p end ∧
  sameSite opts = match sameSite r with Absent => Value lax | p => p end ∧
  maxAge opts = match ttl with
                | Value t =>
                    Value (match adapter with
                           | express => (t * 1000)%float
                           | next | hono | standard => t
                           end)
                | Absent | Undefined => maxAge r
                end.
Proof.
  destruct r as [n v d p m h s ss].
  destruct ttl; cbn; repeat split;
    first [ by destruct n | by destruct v | by destruct d | by destruct p
          | by destruct h | by destruct s | by destruct ss | by destruct m
          | by destruct adapter ].
Qed.

(** C9. For every adapter and override set, [getCookieOptions] returns a
    record whose [httpOnly], [secure], [sameSite] and [path] are the
    defaults [true], [true], ["lax"] and ["/"] unless the overrides hold
    the property, which then replaces the default (with no overrides the
    record is exactly these four fields); and when [ttlSeconds] is supplied
    as a number, [maxAge] is [ttlSeconds * 1000] for ['express'] and
    [ttlSeconds] unchanged for ['next'], ['hono'] and ['standard']. *)
Theorem getCookieOptions_defaults_and_units :
  ∀ (adapter : Adapter),
    getCookieOptions adapter None =
      {| name := Absent; value := Absent; domain := Absent;
         path := Value (js "/"); maxAge := Absent; httpOnly := Value true;
         secure := Value true; sameSite := Value lax |} ∧
    (∀ (ttl : property float) (r : CookieOptions),
       let opts := getCookieOptions adapter (Some {| ttlSeconds := ttl; rest := r |}) in
       httpOnly opts = match httpOnly r with Absent => Value true | p => p end ∧
       secure opts = match secure r with Absent => Value true | p => p end ∧
       sameSite opts = match sameSite r with Absent => Value lax | p => p end ∧
       path opts = match path r with Absent => Value (js "/") | p => p end) ∧
    (∀ (t : float) (r : CookieOptions),
       maxAge (getCookieOptions adapter (Some {| ttlSeconds := Value t; rest := r |})) =
       Value (match adapter with
              | express => (t * 1000)%float
              | next | hono | standard => t
              end)).
Proof.
  intros adapter. split; [reflexivity|]. split.
  - intros ttl r opts.
    destruct (getCookieOptions_fields adapter ttl r)
      as (_ & _ & _ & Hp & Hh & Hs & Hss & _).
    by repeat split.
  - intros t r.
    by destruct (getCookieOptions_fields adapter (Value t) r)
      as (_ & _ & _ & _ & _ & _ & _ & ->).
Qed.

(** C10. When the overrides carry both [ttlSeconds] and an explicit
    [maxAge], the converted [ttlSeconds] wins and the explicit [maxAge] is
    discarded; [maxAge] without [ttlSeconds] is passed through unconverted
    for every adapter; every other override field is merged over the
    defaults unchanged: [name], [value] and [domain] are the overrides'
    own, and [path], [httpOnly], [secure] and [sameSite] are the overrides'
    where they hold the property and ["/"], [true], [true] and ["lax"]
    where they do not. *)
Theorem getCookieOptions_ttl_overrides_maxAge :
  ∀ (adapter : Adapter) (n v d p : property jsstring) (m : property float)
    (h s : property bool) (ss : property SameSite),
    let r := {| name := n; value := v; domain := d; path := p; maxAge := m;
                httpOnly := h; secure := s; sameSite := ss |} in
    (∀ t : float,
        getCookieOptions adapter (Some {| ttlSeconds := Value t; rest := r |}) =
        {| name := n; value := v; domain := d;
           path := match p with Absent => Value (js "/") | _ => p end;
           maxAge := Value (match adapter with
                            | express => (t * 1000)%float
                            | next | hono | standard => t
                            end);
           httpOnly := match h with Absent => Value true | _ => h end;
           secure := match s with Absent => Value true | _ => s end;
           sameSite := match ss with Absent => Value lax | _ => ss end |}) ∧
    (∀ ttl : property float,
        (ttl = Absent ∨ ttl = Undefined) →
        getCookieOptions adapter (Some {| ttlSeconds := ttl; rest := r |}) =
        {| name := n; value := v; domain := d;
           path := match p with Absent => Value (js "/") | _ => p end;
           maxAge := m;
           httpOnly := match h with Absent => Value true | _ => h end;
           secure := match s with Absent => Value true | _ => s end;
           sameSite := match ss with Absent => Value lax | _ => ss end |}).
Proof.
  intros adapter n v d p m h s ss r. subst r. split.
  - intros t.
    cbv [getCookieOptions set_maxAge spread DEFAULTS toMaxAge
         name value domain path maxAge httpOnly secure sameSite].
    f_equal;
      first [ by destruct n | by destruct v | by destruct d | by destruct p
            | by destruct h | by destruct s | by destruct ss
            | by destruct adapter ].
  - intros ttl [-> | ->];
      cbv [getCookieOptions spread DEFAULTS
           name value domain path maxAge httpOnly secure sameSite];
      f_equal;
      first [ by destruct n | by destruct v | by destruct d | by destruct p
            | by destruct h | by destruct s | by destruct ss | by destruct m ].
Qed.

End AdapterProperties.

(** * [seal] and [unseal] on the reference platform *)

Section OnReference.
Import Crypto Reference Committing Vocabulary Scenario.
Local Existing Instance reference.

(** The tests of test/crypto.test.ts, run on the embedding. *)
Example test_round_trip :
  unseal (Some (seal payload SECRET (Some 60%float) (world_at sealed_at)).1) SECRET
         (world_at (sealed_at + 5)%float) = Return (Some (JObject payload)).
Proof. vm_compute. reflexivity. Qed.

Example test_wrong_secret :
  unseal (Some (seal payload_x SECRET (Some 60%float) (world_at sealed_at)).1)
         (js "wrong-secret") (world_at (sealed_at + 5)%float) = Return None.
Proof. vm_compute. reflexivity. Qed.

Example test_expired :
  unseal (Some (seal payload_x SECRET (Some (-1)%float) (world_at sealed_at)).1) SECRET
         (world_at (sealed_at + 5)%float) = Return None.
Proof. vm_compute. reflexivity. Qed.

Example test_bad_format :
  unseal (Some (js "not-dot-separated")) SECRET (world_at sealed_at) = Return None ∧
  unseal (Some (js "a.b.c")) SECRET (world_at sealed_at) = Return None ∧
  unseal (Some []) SECRET (world_at sealed_at) = Return None ∧
  unseal None SECRET (world_at sealed_at) = Return None.
Proof. vm_compute. repeat split. Qed.

Example test_empty_secret :
  unseal (Some (seal payload_x SECRET (Some 60%float) (world_at sealed_at)).1) []
         (world_at (sealed_at + 5)%float) = Return None.
Proof. vm_compute. reflexivity. Qed.

(** [null_token] decrypts, under [SECRET], to the text [null]. *)
Lemma null_token_decrypts : Decrypts null_token SECRET (utf8 "null").
Proof.
  eapply Decrypts_intro.
  - done.
  - vm_compute. reflexivity.
  - vm_compute. reflexivity.
  - vm_compute. reflexivity.
  - vm_compute. reflexivity.
Qed.

(** C2. [unseal] does raise on one kind of token: [null_token], whose
    plaintext is the JSON text [null], makes [unseal] throw a [TypeError]
    under [SECRET] at any time, instead of returning the invalid
    sentinel. *)
Theorem unseal_throws_on_null_token :
  ∀ w : World, unseal (Some null_token) SECRET w = Throw TypeError.
Proof.
  intros w. apply unseal_throws. split; [done|].
  exists null_token, (utf8 "null").
  split; [done|]. split; [apply null_token_decrypts|].
  vm_compute. reflexivity.
Qed.

(** With a [ttlSeconds] of 2^1020 the expiration [Date.now() + ttlSeconds *
    1000] is [Infinity], which [JSON.stringify] writes as [null]: the
    sealed token does not open, at the very instant of sealing, though the
    payload is serializable, the secret is not empty and [ttlSeconds] is
    greater than zero. (Against C1 as stated.) *)
Lemma roundtrip_fails_on_overflow :
  let w := world_at sealed_at in
  let exp := (Date_now w + huge_ttl * 1000)%float in
  payload !! _exp = None ∧
  SECRET ≠ [] ∧
  (0 <? huge_ttl)%float = true ∧
  serializable (JObject payload) ∧
  exp = infinity ∧
  (Date_now w <? exp)%float = true ∧
  unseal (Some (seal payload SECRET (Some huge_ttl) w).1) SECRET w = Return None.
Proof.
  cbv zeta. split; [by vm_compute|]. split; [done|].
  repeat split; vm_compute; reflexivity.
Qed.

(** The token of the test payload, sealed for 60 seconds, still opens at
    the very millisecond its [_exp] names: the check is [exp < Date.now()],
    so the boundary instant is not yet expired. (Against C3 as stated.) *)
Lemma unseal_accepts_at_expiration_instant :
  let token := (seal payload SECRET (Some 60%float) (world_at sealed_at)).1 in
  let w := world_at (sealed_at + 60000)%float in
  let envelope := <[_exp := JNumber (sealed_at + 60000)%float]> payload in
  let plaintext := TextEncoder_encode (JSON_stringify (JObject envelope)) in
  Decrypts token SECRET plaintext ∧
  JSON_parse (TextDecoder_decode plaintext) = Some (JObject envelope) ∧
  envelope !! _exp = Some (JNumber (Date_now w)) ∧
  unseal (Some token) SECRET w = Return (Some (JObject payload)).
Proof.
  cbv zeta. split; [|split; [|split]].
  - exact (seal_decrypts payload SECRET (Some 60%float) (world_at sealed_at)
             reference_aead_correct ltac:(done)).
  - vm_compute. reflexivity.
  - vm_compute. reflexivity.
  - vm_compute. reflexivity.
Qed.


(** ** The theorems at concrete inputs *)

(** The round trip of the test payload, opened one millisecond before it
    expires. *)
Lemma seal_unseal_roundtrip_witness :
  ∃ m : gmap jsstring json,
    unseal (Some (seal payload SECRET (Some 60%float) (world_at sealed_at)).1) SECRET
           (world_at (sealed_at + 59999)%float) = Return (Some (JObject m)) ∧
    m = payload ∧ m !! _exp = None.
Proof.
  apply (seal_unseal_roundtrip payload SECRET 60%float (world_at sealed_at)
           (world_at (sealed_at + 59999)%float)).
  - apply reference_aead_correct.
  - vm_compute. reflexivity.
  - done.
  - reflexivity.
  - vm_compute. reflexivity.
  - vm_compute. reflexivity.
Defined.

(** The expiration check on the token of the test payload, one millisecond
    after its expiration. *)
Lemma unseal_expiration_check_witness :
  let token := (seal payload SECRET (Some 60%float) (world_at sealed_at)).1 in
  let w := world_at (sealed_at + 60001)%float in
  let envelope := <[_exp := JNumber (sealed_at + 60000)%float]> payload in
  (∀ exp : float, envelope !! _exp = Some (JNumber exp) →
     (exp <? Date_now w)%float = true →
     unseal (Some token) SECRET w = Return None) ∧
  (∀ exp : float, envelope !! _exp = Some (JNumber exp) →
     (exp <? Date_now w)%float = false →
     unseal (Some token) SECRET w = Return (Some (JObject (delete _exp envelope)))) ∧
  (∀ exp : float, envelope !! _exp = Some (JNumber exp) →
     (Date_now w <=? exp)%float = true →
     unseal (Some token) SECRET w = Return (Some (JObject (delete _exp envelope)))) ∧
  (envelope !! _exp = Some (JNumber (Date_now w)) →
     unseal (Some token) SECRET w = Return (Some (JObject (delete _exp envelope)))) ∧
  ((∀ exp : float, envelope !! _exp ≠ Some (JNumber exp)) →
     unseal (Some token) SECRET w = Return None).
Proof.
  cbv zeta.
  apply (unseal_expiration_check _ SECRET
           (TextEncoder_encode (JSON_stringify
              (JObject (<[_exp := JNumber (sealed_at + 60000)%float]> payload))))).
  - exact (seal_decrypts payload SECRET (Some 60%float) (world_at sealed_at)
             reference_aead_correct ltac:(done)).
  - vm_compute. reflexivity.
Defined.

(** The outcome of [unseal] on [null_token]. *)
Lemma unseal_non_mapping_witness :
  (JSON_parse (TextDecoder_decode (utf8 "null")) = None →
     unseal (Some null_token) SECRET (world_at sealed_at) = Return None) ∧
  (∀ v : json,
     JSON_parse (TextDecoder_decode (utf8 "null")) = Some v →
     match v with
     | JBool _ | JNumber _ | JString _ | JArray _ =>
         unseal (Some null_token) SECRET (world_at sealed_at) = Return None
     | JNull => unseal (Some null_token) SECRET (world_at sealed_at) = Throw TypeError
     | JObject _ => True
     end).
Proof.
  apply (unseal_non_mapping null_token SECRET (utf8 "null") (world_at sealed_at)).
  apply null_token_decrypts.
Defined.


(** A token of four components. *)
Lemma unseal_malformed_witness :
  unseal (Some (js "a.b.c.d")) SECRET (world_at sealed_at) = Return None.
Proof.
  destruct (unseal_malformed SECRET (world_at sealed_at))
    as (_ & _ & _ & Hsplit & _).
  apply Hsplit. vm_compute. discriminate.
Defined.


End OnReference.

(** * Further properties of the base64url codec *)

Section Base64Codec.
Import Crypto Vocabulary.
Local Open Scope N_scope.

Local Ltac ndiv := zify; Z.to_euclidean_division_equations; lia.

(** X1. Decoding undoes encoding: for every byte string,
    [base64UrlDecode (base64UrlEncode bytes)] returns the bytes. *)
Theorem base64url_roundtrip (bytes : list byte) :
  base64UrlDecode (base64UrlEncode bytes) = Return bytes.
Proof. apply base64UrlDecode_Encode. Qed.

(** X2. [base64UrlEncode] is injective: two byte strings with the same
    encoding are equal. *)
Theorem base64UrlEncode_injective (a b : list byte) :
  base64UrlEncode a = base64UrlEncode b → a = b.
Proof.
  intros Heq.
  assert (H : base64UrlDecode (base64UrlEncode a) = base64UrlDecode (base64UrlEncode b))
    by (by rewrite Heq).
  rewrite !base64UrlDecode_Encode in H. by injection H.
Qed.

Lemma b64_digits_count (bs : list byte) :
  length (b64_digits bs) = ((4 * length bs + 2) / 3)%nat.
Proof.
  induction bs as [|a|a b|a b c rest IH] using list_ind3; [done..|].
  cbn [b64_digits length]. rewrite IH.
  replace (4 * S (S (S (length rest))) + 2)%nat
    with ((4 * length rest + 2) + 4 * 3)%nat by lia.
  rewrite Nat.div_add by done. lia.
Qed.

(** X3. The encoding of [n] bytes has exactly [(4 * n + 2) / 3] characters
    (the unpadded length), all of them in the base64url alphabet. *)
Theorem base64UrlEncode_length (bytes : list byte) :
  length (base64UrlEncode bytes) = ((4 * length bytes + 2) / 3)%nat ∧
  forallb base64url_alphabet (base64UrlEncode bytes) = true.
Proof.
  split; [|apply base64UrlEncode_alphabet].
  by rewrite base64UrlEncode_digits, length_map, b64_digits_count.
Qed.

Lemma filter_replaceAll (a b : N) (s : jsstring) :
  is_ascii_whitespace a = false → is_ascii_whitespace b = false →
  List.filter (λ c, negb (is_ascii_whitespace c)) (replaceAll a b s) =
  replaceAll a b (List.filter (λ c, negb (is_ascii_whitespace c)) s).
Proof.
  intros Ha Hb. unfold replaceAll.
  induction s as [|c s IH]; [done|]. cbn [map List.filter].
  destruct (N.eqb_spec c a) as [->|Hne].
  - rewrite Ha, Hb. cbn. by rewrite N.eqb_refl, IH.
  - destruct (is_ascii_whitespace c); cbn; [done|].
    apply N.eqb_neq in Hne as ->. by rewrite IH.
Qed.

Lemma filter_whitespace_idempotent (s : jsstring) :
  List.filter (λ c, negb (is_ascii_whitespace c))
    (List.filter (λ c, negb (is_ascii_whitespace c)) s) =
  List.filter (λ c, negb (is_ascii_whitespace c)) s.
Proof.
  induction s as [|c s IH]; [done|]. cbn.
  destruct (is_ascii_whitespace c) eqn:Hc; cbn; [done|].
  by rewrite Hc, IH.
Qed.

Lemma base64UrlDecode_filter (str : jsstring) :
  base64UrlDecode str =
  base64UrlDecode (List.filter (λ c, negb (is_ascii_whitespace c)) str).
Proof.
  unfold base64UrlDecode, atob.
  rewrite <- !filter_replaceAll by done.
  by rewrite filter_whitespace_idempotent.
Qed.

(** X4. [base64UrlDecode] skips ASCII whitespace (tab, line feed, form feed,
    carriage return, space) wherever it stands: a string decodes as the
    string without its whitespace does. *)
Theorem base64UrlDecode_ignores_whitespace (str : jsstring) :
  base64UrlDecode str =
  base64UrlDecode (List.filter (λ c, negb (is_ascii_whitespace c)) str).
Proof. apply base64UrlDecode_filter. Qed.

Lemma decodable_char_false (c : N) :
  decodable_char c = false →
  c ≠ 45 ∧ c ≠ 95 ∧ c ≠ 61 ∧ is_ascii_whitespace c = false ∧ b64_index c = None.
Proof.
  unfold decodable_char, base64url_alphabet, b64_index. intros Hc.
  repeat (apply orb_false_iff in Hc as [Hc ?]).
  repeat match goal with H : (_ =? _) = false |- _ => apply N.eqb_neq in H end.
  repeat split; try done.
  destruct (N.leb_spec 65 c), (N.leb_spec c 90), (N.leb_spec 97 c),
    (N.leb_spec c 122), (N.leb_spec 48 c), (N.leb_spec c 57);
    cbn in *; try done;
    repeat match goal with
           | |- context [?a =? ?b] => destruct (N.eqb_spec a b); try done
           end.
Qed.

Lemma remove_padding_In (c : N) (data : jsstring) :
  c ≠ 61 → In c data → In c (remove_padding data).
Proof.
  intros Hc Hin. unfold remove_padding.
  apply in_rev in Hin.
  destruct (rev data) as [|x [|y r]] eqn:Hrev; [done| |].
  - destruct Hin as [->|[]]. apply N.eqb_neq in Hc as ->.
    apply in_rev. rewrite Hrev. by left.
  - destruct (N.eqb_spec x 61) as [->|Hx].
    + destruct Hin as [Heq|Hin]; [done|].
      destruct (N.eqb_spec y 61) as [->|Hy].
      * destruct Hin as [Heq|Hin]; [done|]. by apply in_rev in Hin.
      * by apply in_rev in Hin.
    + apply in_rev. by rewrite Hrev.
Qed.

Lemma sextets_None (c : N) (data : jsstring) :
  In c data → b64_index c = None → sextets data = None.
Proof.
  intros Hin Hc. induction data as [|x data IH]; [done|]. cbn.
  destruct Hin as [->|Hin]; [by rewrite Hc|].
  rewrite (IH Hin). by destruct (b64_index x).
Qed.

(** X5. A string that holds a character [atob] gives no meaning (anything
    but the base64 and base64url alphabets, [=] and ASCII whitespace: a
    ['.'], a ['%'], a character beyond ASCII) does not decode:
    [base64UrlDecode] throws. *)
Theorem base64UrlDecode_invalid_character (str : jsstring) (c : N) :
  In c str → decodable_char c = false →
  base64UrlDecode str = Throw InvalidCharacterError.
Proof.
  intros Hin (H45 & H95 & H61 & Hws & Hidx)%decodable_char_false.
  unfold base64UrlDecode, atob.
  set (data := List.filter _ _).
  assert (Hdata : In c data).
  { unfold data. apply filter_In. split; [|by rewrite Hws].
    unfold replaceAll. rewrite map_map. apply in_map_iff. exists c. split; [|done].
    apply N.eqb_neq in H45 as ->. by apply N.eqb_neq in H95 as ->. }
  set (data' := if N.of_nat (length data) mod 4 =? 0 then remove_padding data else data).
  assert (Hdata' : In c data').
  { unfold data'. case_match; [by apply remove_padding_In|done]. }
  rewrite (sextets_None c data' Hdata' Hidx).
  by destruct (N.of_nat (length data') mod 4 =? 1).
Qed.

Lemma replaceAll_length (a b : N) (s : jsstring) :
  length (replaceAll a b s) = length s.
Proof. apply length_map. Qed.

Lemma alphabet_not_whitespace (s : jsstring) :
  forallb base64url_alphabet s = true →
  List.filter (λ c, negb (is_ascii_whitespace c))
    (replaceAll 95 47 (replaceAll 45 43 s)) =
  replaceAll 95 47 (replaceAll 45 43 s).
Proof.
  intros Hs. rewrite !filter_replaceAll by done. do 2 f_equal.
  induction s as [|c s IH]; [done|].
  cbn in Hs. apply andb_true_iff in Hs as [Hc Hs]. cbn. rewrite (IH Hs).
  assert (Hws : is_ascii_whitespace c = false); [|by rewrite Hws].
  unfold base64url_alphabet in Hc. unfold is_ascii_whitespace.
  repeat match goal with
         | |- context [c =? ?k] =>
             destruct (N.eqb_spec c k) as [E|?]; [by rewrite E in Hc|]
         end.
  done.
Qed.

(** X6. A string over the base64url alphabet whose length leaves 1 modulo 4
    is not the encoding of any bytes: [base64UrlDecode] throws. *)
Theorem base64UrlDecode_bad_length (str : jsstring) :
  forallb base64url_alphabet str = true →
  (length str mod 4 = 1)%nat →
  base64UrlDecode str = Throw InvalidCharacterError.
Proof.
  intros Hs Hlen. unfold base64UrlDecode, atob.
  rewrite alphabet_not_whitespace by done.
  rewrite !replaceAll_length.
  assert (HlenN : N.of_nat (length str) mod 4 = 1).
  { change 4 with (N.of_nat 4). by rewrite <- Nat2N.inj_mod, Hlen. }
  rewrite HlenN. cbn [N.eqb Pos.eqb]. rewrite !replaceAll_length, HlenN. done.
Qed.

Lemma b64_char_not_url (n : N) : n < 64 → b64_char n ≠ 45 ∧ b64_char n ≠ 95.
Proof.
  intros Hn.
  pose proof (forall_lt_64 (λ n, negb (b64_char n =? 45) && negb (b64_char n =? 95))
                ltac:(vm_compute; reflexivity) n Hn) as H.
  cbn beta in H. apply andb_true_iff in H as [H1%negb_true_iff%N.eqb_neq
                                               H2%negb_true_iff%N.eqb_neq].
  done.
Qed.

Lemma replaceAll_id (a b : N) (s : jsstring) :
  Forall (λ c, c ≠ a) s → replaceAll a b s = s.
Proof.
  unfold replaceAll. induction 1 as [|c s Hc Hs IH]; [done|]. cbn.
  apply N.eqb_neq in Hc as ->. by rewrite IH.
Qed.

Lemma b64_padding_le (bs : list byte) : (b64_padding bs ≤ 2)%nat.
Proof.
  induction bs as [|a|a b|a b c rest IH] using list_ind3; cbn; lia.
Qed.

Lemma btoa_length (bs : list byte) : N.of_nat (length (btoa bs)) mod 4 = 0.
Proof.
  induction bs as [|a|a b|a b c rest IH] using list_ind3; [done..|].
  cbn [btoa length]. revert IH. generalize (length (btoa rest)). intros n. ndiv.
Qed.

Lemma remove_padding_padded (l : jsstring) (k : nat) :
  Forall (λ c, c ≠ 61) l → (k ≤ 2)%nat →
  remove_padding (l ++ replicate k 61) = l.
Proof.
  intros Hl Hk. unfold remove_padding.
  rewrite rev_app_distr.
  assert (Hrevk : rev (replicate k 61) = replicate k 61).
  { destruct k as [|[|[|k]]]; try done. lia. }
  rewrite Hrevk.
  assert (Hhead : ∀ x r, rev l = x :: r → x ≠ 61).
  { intros x r Hrev. rewrite Forall_forall in Hl. apply Hl, list_elem_of_In, in_rev.
    rewrite Hrev. by left. }
  destruct k as [|[|[|k]]]; [| | |lia]; cbn [replicate app].
  - rewrite app_nil_r.
    destruct (rev l) as [|x [|y r]] eqn:Hrev; [done| |].
    + by rewrite (proj2 (N.eqb_neq _ _) (Hhead x [] eq_refl)).
    + by rewrite (proj2 (N.eqb_neq _ _) (Hhead x (y :: r) eq_refl)).
  - destruct (rev l) as [|y r] eqn:Hrev.
    + cbn. apply (f_equal (@rev N)) in Hrev. by rewrite rev_involutive in Hrev.
    + cbn [N.eqb Pos.eqb]. rewrite (proj2 (N.eqb_neq _ _) (Hhead y r eq_refl)).
      by rewrite <- Hrev, rev_involutive.
  - cbn [N.eqb Pos.eqb]. by rewrite rev_involutive.
Qed.

(** X7. [base64UrlDecode] also reads standard, padded base64: what [btoa]
    writes (with [+], [/] and [=]) decodes to the bytes it was written
    from. *)
Theorem base64UrlDecode_btoa (bytes : list byte) :
  base64UrlDecode (btoa bytes) = Return bytes.
Proof.
  pose proof (b64_digits_lt bytes) as Hlt.
  assert (H61 : Forall (λ c, c ≠ 61) (map b64_char (b64_digits bytes))).
  { apply Forall_map. eapply Forall_impl; [exact Hlt|].
    intros n Hn. by apply b64_char_cases. }
  unfold base64UrlDecode.
  assert (Hrepl : replaceAll 95 47 (replaceAll 45 43 (btoa bytes)) = btoa bytes).
  { rewrite btoa_digits.
    rewrite (replaceAll_id 45), (replaceAll_id 95); [done|..];
      (apply Forall_app; split;
       [apply Forall_map; eapply Forall_impl; [exact Hlt|];
        intros n Hn; cbn; by apply b64_char_not_url
       |by apply Forall_replicate]). }
  rewrite Hrepl. unfold atob.
  assert (Hfilter : List.filter (λ c, negb (is_ascii_whitespace c)) (btoa bytes)
                    = btoa bytes).
  { rewrite btoa_digits, List.filter_app, filter_whitespace_b64 by done.
    f_equal. induction (b64_padding bytes) as [|k IH]; [done|]. cbn. by rewrite IH. }
  rewrite Hfilter, btoa_length. cbn [N.eqb].
  rewrite btoa_digits, remove_padding_padded by (done || apply b64_padding_le).
  rewrite length_map.
  pose proof (b64_digits_length bytes) as Hlen. apply N.eqb_neq in Hlen as ->.
  by rewrite sextets_b64_char, bytes_of_b64_digits.
Qed.

End Base64Codec.

(** * Further properties of [seal] and [unseal] *)

Section CodecBehaviour.
Import Crypto Vocabulary.
Context `{Pf : Platform}.

Lemma String_split_length (sep : N) (s : jsstring) :
  length (String_split sep s) = S (count_occ N.eq_dec s sep).
Proof.
  induction s as [|c s IH]; [done|]. cbn [String_split count_occ].
  destruct (N.eqb_spec c sep) as [->|Hne].
  - destruct (N.eq_dec sep sep); [|done]. cbn. by rewrite IH.
  - destruct (N.eq_dec c sep); [done|].
    destruct (String_split sep s); [done|]. by rewrite <- IH.
Qed.

Lemma unseal_bad_split (token secret : jsstring) (w : World) :
  length (String_split SEPARATOR token) ≠ 2%nat →
  unseal (Some token) secret w = Return None.
Proof.
  intros Hlen. destruct token as [|c token]; [done|].
  destruct secret as [|d secret]; [done|]. unfold unseal.
  by destruct (String_split SEPARATOR (c :: token)) as [|? [|? [|??]]].
Qed.

(** X8. [unseal] returns the invalid sentinel for every token that does not
    hold exactly one ['.']: the number of components [split] gives is one
    more than the number of separators. *)
Theorem unseal_needs_one_separator (token secret : jsstring) (w : World) :
  count_occ N.eq_dec token SEPARATOR ≠ 1%nat →
  unseal (Some token) secret w = Return None.
Proof.
  intros Hcount. apply unseal_bad_split.
  rewrite String_split_length. lia.
Qed.

(** [unseal] returns a value in one case only. *)
Lemma unseal_success (token : option jsstring) (secret : jsstring) (w : World)
    (v : json) :
  unseal token secret w = Return (Some v) ↔
  ∃ (t : jsstring) (plaintext : list byte) (m : gmap jsstring json) (exp : float),
    token = Some t ∧ Decrypts t secret plaintext ∧
    JSON_parse (TextDecoder_decode plaintext) = Some (JObject m) ∧
    m !! _exp = Some (JNumber exp) ∧ (exp <? Date_now w)%float = false ∧
    v = JObject (delete _exp m).
Proof.
  split.
  - destruct token as [[|c t]|]; [done| |done].
    destruct secret as [|d secret]; [done|].
    unfold unseal.
    destruct (String_split SEPARATOR (c :: t)) as [|ivB64 [|ctB64 [|??]]] eqn:Hsplit;
      try done.
    destruct (base64UrlDecode ivB64) as [iv|] eqn:Hiv; [|done].
    destruct (base64UrlDecode ctB64) as [ciphertext|] eqn:Hct; [|done].
    unfold toArrayBuffer.
    destruct (AES_GCM_decrypt _ iv ciphertext) as [plaintext|] eqn:Hdec; [|done].
    destruct (JSON_parse _) as [data|] eqn:Hparse; [|done].
    destruct data as [|b|z|s|l|m]; cbn [get_exp]; try done.
    destruct (m !! _exp) as [[|?|exp|?|?|?]|] eqn:Hexp; try done.
    destruct (exp <? Date_now w)%float eqn:Hcmp; [done|].
    intros [= <-]. exists (c :: t), plaintext, m, exp.
    repeat split; try done. by econstructor.
  - intros (t & plaintext & m & exp & -> & Hdec & Hparse & Hexp & Hnow & ->).
    rewrite (unseal_decrypts _ _ _ _ Hdec), Hparse. cbn [get_exp delete_exp].
    by rewrite Hexp, Hnow.
Qed.

(** X9. [unseal] returns a value exactly when the token passes the format
    checks, decrypts under the secret, parses to a JSON object whose [_exp]
    is a number for which [exp < Date.now()] is false; the value is then
    that object without [_exp]. *)
Theorem unseal_returns_payload (token : option jsstring) (secret : jsstring)
    (w : World) (v : json) :
  unseal token secret w = Return (Some v) ↔
  ∃ (t : jsstring) (plaintext : list byte) (m : gmap jsstring json) (exp : float),
    token = Some t ∧ Decrypts t secret plaintext ∧
    JSON_parse (TextDecoder_decode plaintext) = Some (JObject m) ∧
    m !! _exp = Some (JNumber exp) ∧ (exp <? Date_now w)%float = false ∧
    v = JObject (delete _exp m).
Proof. apply unseal_success. Qed.

(** X10. Whatever [unseal] returns other than the invalid sentinel is an
    object, and [_exp] is not one of its keys. *)
Theorem unseal_result_has_no_exp (token : option jsstring) (secret : jsstring)
    (w : World) (v : json) :
  unseal token secret w = Return (Some v) →
  ∃ m : gmap jsstring json, v = JObject m ∧ m !! _exp = None.
Proof.
  intros (t & plaintext & m & exp & _ & _ & _ & _ & _ & ->)%unseal_success.
  exists (delete _exp m). split; [done|]. apply lookup_delete_eq.
Qed.

(** X11. Validity only ends: a token [unseal] accepts at some instant is
    accepted, with the same value, at every earlier instant, and at any
    other instant [unseal] returns either that same value or the invalid
    sentinel. *)
Theorem unseal_time_monotone (token : option jsstring) (secret : jsstring)
    (w w' : World) (v : json) :
  unseal token secret w = Return (Some v) →
  ((Date_now w' <=? Date_now w)%float = true →
     unseal token secret w' = Return (Some v)) ∧
  (unseal token secret w' = Return (Some v) ∨ unseal token secret w' = Return None).
Proof.
  intros (t & plaintext & m & exp & -> & Hdec & Hparse & Hexp & Hnow & ->)%unseal_success.
  rewrite (unseal_decrypts _ _ _ _ Hdec), Hparse. cbn [get_exp delete_exp].
  rewrite Hexp. split.
  - intros Hle. by rewrite (float_not_ltb_earlier _ _ _ Hnow Hle).
  - destruct (exp <? Date_now w')%float; [by right|by left].
Qed.

(** X12. Expiration is enforced: once the clock is past the expiration
    instant (at once, for a negative [ttlSeconds]), [unseal] returns the
    invalid sentinel for the sealed token, under the very secret that
    sealed it. *)
Theorem unseal_seal_expired (P : gmap jsstring json) (S : jsstring)
    (T : option float) (w w' : World) :
  aead_correct →
  S ≠ [] →
  serializable (JObject
    (<[_exp := JNumber (Date_now w + default TTL_DEFAULT T * 1000)%float]> P)) →
  (Date_now w + default TTL_DEFAULT T * 1000 <? Date_now w')%float = true →
  unseal (Some (seal P S T w).1) S w' = Return None.
Proof.
  intros Haead HS Hser Hnow. rewrite unseal_seal by done.
  by rewrite Hnow.
Qed.

(** X13. With [ttlSeconds] omitted the token lives 300 seconds: it opens up
    to and including 300000 ms after sealing, and no longer after that. *)
Theorem seal_default_ttl (P : gmap jsstring json) (S : jsstring) (w w' : World) :
  aead_correct →
  S ≠ [] →
  P !! _exp = None →
  serializable (JObject (<[_exp := JNumber (Date_now w + 300000)%float]> P)) →
  ((Date_now w' <=? Date_now w + 300000)%float = true →
     unseal (Some (seal P S None w).1) S w' = Return (Some (JObject P))) ∧
  ((Date_now w + 300000 <? Date_now w')%float = true →
     unseal (Some (seal P S None w).1) S w' = Return None).
Proof.
  intros Haead HS HP Hser.
  assert (Httl : (TTL_DEFAULT * 1000)%float = 300000%float)
    by (vm_compute; reflexivity).
  rewrite unseal_seal; cbn [default]; rewrite ?Httl; [|done..].
  rewrite delete_id by done.
  split; intros Hnow.
  - by rewrite (float_leb_not_ltb _ _ Hnow).
  - by rewrite Hnow.
Qed.

(** X14. Each [seal] draws its own 12 bytes: the first component of the
    token encodes the next 12 bytes of the random source, a [seal] that
    follows encodes the 12 bytes after them, and the two components are
    equal only if those two draws are. *)
Theorem seal_fresh_iv (P1 P2 : gmap jsstring json) (S1 S2 : jsstring)
    (T1 T2 : option float) (w : World) :
  let w1 := (seal P1 S1 T1 w).2 in
  let iv1 := map (entropy w) (seq 0 12) in
  let iv2 := map (entropy w) (seq 12 12) in
  ∃ ct1 ct2 : jsstring,
    String_split SEPARATOR (seal P1 S1 T1 w).1 = [base64UrlEncode iv1; ct1] ∧
    String_split SEPARATOR (seal P2 S2 T2 w1).1 = [base64UrlEncode iv2; ct2] ∧
    (base64UrlEncode iv1 = base64UrlEncode iv2 ↔ iv1 = iv2).
Proof.
  cbv zeta. eexists _, _.
  split; [apply seal_split|]. split; [apply seal_split|].
  split; [|by intros ->].
  intros Heq.
  assert (H : base64UrlDecode (base64UrlEncode (map (entropy w) (seq 0 12))) =
              base64UrlDecode (base64UrlEncode (map (entropy w) (seq 12 12))))
    by (by rewrite Heq).
  rewrite !base64UrlDecode_Encode in H. congruence.
Qed.

(** X15. The first component of every token has 16 characters, so the
    separator is the character at index 16. *)
Theorem seal_separator_position (P : gmap jsstring json) (S : jsstring)
    (T : option float) (w : World) :
  ∃ ivB64 ctB64 : jsstring,
    (seal P S T w).1 = ivB64 ++ SEPARATOR :: ctB64 ∧
    length ivB64 = 16%nat ∧
    (seal P S T w).1 !! 16%nat = Some SEPARATOR.
Proof.
  eexists _, _. split; [apply seal_token|].
  assert (Hlen : length (base64UrlEncode (getRandomValues IV_LENGTH w).1) = 16%nat).
  { rewrite base64UrlEncode_digits, length_map, b64_digits_count.
    by rewrite getRandomValues_length. }
  split; [done|].
  rewrite seal_token, lookup_app_r by lia. by rewrite Hlen.
Qed.

Lemma String_split_nonempty (sep : N) (s : jsstring) : String_split sep s ≠ [].
Proof.
  intros Hnil. pose proof (String_split_length sep s) as Hlen.
  by rewrite Hnil in Hlen.
Qed.

Lemma String_split_append (sep : N) (s ws : jsstring) :
  Forall (λ c, c ≠ sep) ws →
  String_split sep (s ++ ws) = append_last (String_split sep s) ws.
Proof.
  intros Hws. induction s as [|c s IH]; cbn [app String_split].
  - by rewrite String_split_no_sep.
  - rewrite IH. pose proof (String_split_nonempty sep s) as Hne.
    destruct (c =? sep)%N.
    + by destruct (String_split sep s).
    + by destruct (String_split sep s) as [|p [|q ps]].
Qed.

Lemma whitespace_no_separator (ws : jsstring) :
  forallb is_ascii_whitespace ws = true → Forall (λ c, c ≠ SEPARATOR) ws.
Proof.
  intros Hws. apply Forall_forall. intros c Hc%list_elem_of_In ->.
  rewrite forallb_forall in Hws. by specialize (Hws _ Hc).
Qed.

Lemma base64UrlDecode_app_whitespace (str ws : jsstring) :
  forallb is_ascii_whitespace ws = true →
  base64UrlDecode (str ++ ws) = base64UrlDecode str.
Proof.
  intros Hws.
  rewrite (base64UrlDecode_filter (str ++ ws)), (base64UrlDecode_filter str).
  rewrite List.filter_app.
  assert (Hnil : List.filter (λ c, negb (is_ascii_whitespace c)) ws = []).
  { induction ws as [|c ws IH]; [done|]. cbn in *.
    apply andb_true_iff in Hws as [-> Hws]. cbn. by apply IH. }
  by rewrite Hnil, app_nil_r.
Qed.

(** X16. Whitespace after a token does not matter: [unseal] of a token
    followed by spaces, tabs or line ends gives what [unseal] of the token
    gives. *)
Theorem unseal_trailing_whitespace (token ws secret : jsstring) (w : World) :
  forallb is_ascii_whitespace ws = true →
  unseal (Some (token ++ ws)) secret w = unseal (Some token) secret w.
Proof.
  intros Hws.
  destruct ws as [|x ws]; [by rewrite app_nil_r|].
  pose proof (whitespace_no_separator _ Hws) as Hsep.
  destruct token as [|c token].
  - cbn [app]. rewrite unseal_bad_split; [done|].
    by rewrite String_split_no_sep.
  - destruct secret as [|d secret]; [done|].
    cbn [app]. unfold unseal.
    change (c :: token ++ x :: ws) with ((c :: token) ++ x :: ws).
    rewrite String_split_append by done.
    destruct (String_split SEPARATOR (c :: token)) as [|a [|b [|l [|??]]]];
      try done.
    cbn [append_last]. by rewrite base64UrlDecode_app_whitespace.
Qed.

Lemma TextEncoder_encode_nil (s : jsstring) : TextEncoder_encode s = [] → s = [].
Proof.
  destruct s as [|c s]; [done|]. unfold TextEncoder_encode.
  assert (Hcp : ∃ cp cps, code_points (c :: s) = cp :: cps).
  { cbn. destruct (is_lead_surrogate c); [|destruct (is_trail_surrogate c); eauto].
    destruct s as [|d s]; [eauto|]. destruct (is_trail_surrogate d); eauto. }
  destruct Hcp as (cp & cps & ->). cbn [map concat].
  unfold utf8_of_code_point. by repeat case_match.
Qed.

(** X17. The secret counts only through its UTF-8 encoding: two secrets
    that [TextEncoder] encodes to the same bytes seal to the same token and
    are interchangeable in [unseal]. *)
Theorem secret_through_utf8 (S1 S2 : jsstring) :
  TextEncoder_encode S1 = TextEncoder_encode S2 →
  (∀ (P : gmap jsstring json) (T : option float) (w : World),
     seal P S1 T w = seal P S2 T w) ∧
  (∀ (token : option jsstring) (w : World),
     unseal token S1 w = unseal token S2 w).
Proof.
  intros Henc.
  assert (Hkey : deriveKey S1 = deriveKey S2) by (unfold deriveKey; by rewrite Henc).
  split.
  - intros P T w. unfold seal. by rewrite Hkey.
  - intros token w.
    destruct S1 as [|c1 S1], S2 as [|c2 S2]; [done| | |].
    + symmetry in Henc. by apply TextEncoder_encode_nil in Henc.
    + by apply TextEncoder_encode_nil in Henc.
    + unfold unseal. by rewrite Hkey.
Qed.

End CodecBehaviour.

(** * Further properties of the cookie options *)

Section AdapterBehaviour.
Import Adapters.

(** X18. [clearCookieOptions] always returns [maxAge: 0] and [value: ''],
    whatever the overrides hold; [name] and [domain] are the overrides'
    own; [path], [httpOnly], [secure] and [sameSite] are the overrides'
    where they hold the property (also with the value [undefined]) and the
    defaults ["/"], [true], [true] and ["lax"] where they do not; and the
    adapter plays no part in the result. *)
Theorem clearCookieOptions_clears (adapter adapter' : Adapter)
    (overrides : option CookieOptions) :
  let opts := clearCookieOptions adapter overrides in
  let o := default empty_options overrides in
  maxAge opts = Value 0%float ∧ value opts = Value [] ∧
  name opts = name o ∧ domain opts = domain o ∧
  path opts = match path o with Absent => Value (js "/") | p => p end ∧
  httpOnly opts = match httpOnly o with Absent => Value true | p => p end ∧
  secure opts = match secure o with Absent => Value true | p => p end ∧
  sameSite opts = match sameSite o with Absent => Value lax | p => p end ∧
  clearCookieOptions adapter' overrides = opts.
Proof.
  destruct overrides as [[n v d p m h s ss]|]; [|by repeat split].
  cbn. repeat split;
    first [ by destruct n | by destruct d | by destruct p
          | by destruct h | by destruct s | by destruct ss ].
Qed.

(** With no overrides, or overrides that hold [undefined] where a default
    exists, the cleared options are these. *)
Example test_clear_undefined_path :
  clearCookieOptions next None =
    {| name := Absent; value := Value []; domain := Absent;
       path := Value (js "/"); maxAge := Value 0%float; httpOnly := Value true;
       secure := Value true; sameSite := Value lax |} ∧
  path (clearCookieOptions next
          (Some {| name := Value (js "session"); value := Absent; domain := Absent;
                   path := Undefined; maxAge := Absent; httpOnly := Absent;
                   secure := Absent; sameSite := Absent |})) = Undefined.
Proof. split; reflexivity. Qed.

(** X19. The adapter matters only for the conversion of [ttlSeconds]:
    without a numeric [ttlSeconds] (none, or [undefined]) every adapter
    gives the same record (an explicit [maxAge] is left in the caller's
    unit), and ['next'], ['hono'] and ['standard'] give the same record for
    every input. *)
Theorem getCookieOptions_adapter_role (a a' : Adapter) :
  getCookieOptions a None = getCookieOptions a' None ∧
  (∀ r : CookieOptions,
     getCookieOptions a (Some {| ttlSeconds := Absent; rest := r |}) =
     getCookieOptions a' (Some {| ttlSeconds := Absent; rest := r |})) ∧
  (∀ r : CookieOptions,
     getCookieOptions a (Some {| ttlSeconds := Undefined; rest := r |}) =
     getCookieOptions a' (Some {| ttlSeconds := Undefined; rest := r |})) ∧
  (∀ o : option Overrides,
     getCookieOptions next o = getCookieOptions hono o ∧
     getCookieOptions hono o = getCookieOptions standard o).
Proof.
  split; [done|]. split; [done|]. split; [done|].
  by intros [[[| |t] r]|].
Qed.

End AdapterBehaviour.

(** * The further properties at concrete inputs *)

Section BehaviourOnReference.
Import Crypto Reference Vocabulary Scenario.
Local Existing Instance reference.

(** Two equal encodings of the bytes ["AB"]. *)
Lemma base64UrlEncode_injective_witness : [x41; x42] = [x41; x42].
Proof.
  apply (base64UrlEncode_injective [x41; x42] [x41; x42]). reflexivity.
Defined.

(** A ['.'] inside a component. *)
Lemma base64UrlDecode_invalid_character_witness :
  base64UrlDecode (js "ab.c") = Throw InvalidCharacterError.
Proof.
  apply (base64UrlDecode_invalid_character (js "ab.c") 46%N).
  - cbn. auto.
  - reflexivity.
Defined.

(** Five characters of the alphabet. *)
Lemma base64UrlDecode_bad_length_witness :
  base64UrlDecode (js "abcde") = Throw InvalidCharacterError.
Proof.
  apply (base64UrlDecode_bad_length (js "abcde")); reflexivity.
Defined.

(** A token with two separators. *)
Lemma unseal_needs_one_separator_witness :
  unseal (Some (js "a.b.c")) SECRET (world_at sealed_at) = Return None.
Proof.
  apply (unseal_needs_one_separator (js "a.b.c") SECRET (world_at sealed_at)).
  vm_compute. discriminate.
Defined.

(** The value returned for the token of the test payload. *)
Lemma unseal_result_has_no_exp_witness :
  ∃ m : gmap jsstring json, JObject payload = JObject m ∧ m !! _exp = None.
Proof.
  apply (unseal_result_has_no_exp
           (Some (seal payload SECRET (Some 60%float) (world_at sealed_at)).1) SECRET
           (world_at (sealed_at + 5)%float) (JObject payload)).
  vm_compute. reflexivity.
Defined.

(** The token of the test payload, accepted 5 ms after sealing, at the
    instant of sealing and at another instant. *)
Lemma unseal_time_monotone_witness :
  let token := Some (seal payload SECRET (Some 60%float) (world_at sealed_at)).1 in
  ((Date_now (world_at sealed_at) <=? Date_now (world_at (sealed_at + 5)%float))%float
     = true →
     unseal token SECRET (world_at sealed_at) = Return (Some (JObject payload))) ∧
  (unseal token SECRET (world_at sealed_at) = Return (Some (JObject payload)) ∨
   unseal token SECRET (world_at sealed_at) = Return None).
Proof.
  cbv zeta.
  apply (unseal_time_monotone
           (Some (seal payload SECRET (Some 60%float) (world_at sealed_at)).1) SECRET
           (world_at (sealed_at + 5)%float) (world_at sealed_at) (JObject payload)).
  vm_compute. reflexivity.
Defined.

(** The test payload sealed with [ttlSeconds = -1]. *)
Lemma unseal_seal_expired_witness :
  unseal (Some (seal payload_x SECRET (Some (-1)%float) (world_at sealed_at)).1) SECRET
         (world_at (sealed_at + 5)%float) = Return None.
Proof.
  apply (unseal_seal_expired payload_x SECRET (Some (-1)%float) (world_at sealed_at)
           (world_at (sealed_at + 5)%float)).
  - apply reference_aead_correct.
  - done.
  - vm_compute. reflexivity.
  - vm_compute. reflexivity.
Defined.

(** A [ttlSeconds] of -2^1020 gives the expiration [-Infinity], written as
    [null]: the token is rejected as well. *)
Example test_expired_overflow :
  unseal (Some (seal payload_x SECRET (Some (- huge_ttl)%float) (world_at sealed_at)).1)
         SECRET (world_at sealed_at) = Return None.
Proof. vm_compute. reflexivity. Qed.

(** The test payload sealed without [ttlSeconds]. *)
Lemma seal_default_ttl_witness :
  let w := world_at sealed_at in
  let w' := world_at (sealed_at + 300000)%float in
  ((Date_now w' <=? Date_now w + 300000)%float = true →
     unseal (Some (seal payload SECRET None w).1) SECRET w'
     = Return (Some (JObject payload))) ∧
  ((Date_now w + 300000 <? Date_now w')%float = true →
     unseal (Some (seal payload SECRET None w).1) SECRET w' = Return None).
Proof.
  cbv zeta.
  apply (seal_default_ttl payload SECRET (world_at sealed_at)
           (world_at (sealed_at + 300000)%float)).
  - apply reference_aead_correct.
  - done.
  - vm_compute. reflexivity.
  - vm_compute. reflexivity.
Defined.

(** The token of the test payload followed by a line feed. *)
Lemma unseal_trailing_whitespace_witness :
  unseal (Some ((seal payload SECRET (Some 60%float) (world_at sealed_at)).1 ++ [10%N]))
         SECRET (world_at (sealed_at + 5)%float) =
  unseal (Some (seal payload SECRET (Some 60%float) (world_at sealed_at)).1)
         SECRET (world_at (sealed_at + 5)%float).
Proof.
  apply (unseal_trailing_whitespace
           (seal payload SECRET (Some 60%float) (world_at sealed_at)).1 [10%N] SECRET
           (world_at (sealed_at + 5)%float)).
  reflexivity.
Defined.

(** The two secrets of one unpaired surrogate each. *)
Lemma secret_through_utf8_witness :
  (∀ (P : gmap jsstring json) (T : option float) (w : World),
     seal P lone_D800 T w = seal P lone_D801 T w) ∧
  (∀ (token : option jsstring) (w : World),
     unseal token lone_D800 w = unseal token lone_D801 w).
Proof.
  apply (secret_through_utf8 lone_D800 lone_D801). reflexivity.
Defined.

End BehaviourOnReference.
